(** * PhishShield browser extension: background scan orchestrator and bulk link scan

    A shallow embedding of the background service worker ([scanUrl],
    [updateBadge], [showNotification], [cleanCache], the tab listeners and the
    message listener) and of the popup's [scanPageLinks], followed by the
    properties of the specification checked against them.

    Conventions of the embedding.
    - Strings are [string]; [toLowerCase] folds the ASCII letters.
    - A value produced by [JSON.parse] is a [JsVal]; JavaScript's [undefined]
      is [None] in an [option JsVal].
    - The JavaScript [Map] [urlCache] is an association list in insertion
      order with unique keys, because the order decides ties in the capacity
      sweep.
    - Every call to the browser ([chrome.action], [chrome.notifications],
      [chrome.storage], [fetch]) is recorded in a chronological trace; the
      calls themselves are taken not to throw.  What the platform answers
      during one call (clock readings, the outcome of [fetch], the stored
      setting) is an explicit environment record.
    - One call of [scanUrl] is run to completion before the next one starts:
      interleavings at [await] are outside this model. *)

From Stdlib Require Import String Ascii List ZArith QArith Bool Arith Lia.
From Stdlib Require HexString.
From Stdlib Require Import Sorting.Permutation Sorting.Sorted.
Import ListNotations.
Local Close Scope Q_scope.
Local Open Scope string_scope.
Local Open Scope list_scope.
Local Set Warnings "-register-all".

(* ===================================================================== *)
(** ** JavaScript values *)
(* ===================================================================== *)

(** The result of [response.json()]: a JSON document. *)
Inductive JsVal : Type :=
| JNull
| JBool (b : bool)
| JNum (q : Q)
| JStr (s : string)
| JArr (items : list JsVal)
| JObj (fields : list (string * JsVal)).

(** What a [throw] carries. *)
Inductive JsError : Type :=
| TypeError                      (* property read on null / undefined *)
| FetchRejected                  (* fetch() rejected: network failure *)
| JsonSyntaxError                (* response.json() rejected *)
| ErrorOf (message : option JsVal).  (* new Error(result.error) *)

Fixpoint assoc {V : Type} (k : string) (m : list (string * V)) : option V :=
  match m with
  | [] => None
  | (k', v) :: m' => if String.eqb k' k then Some v else assoc k m'
  end.

(** [v.name] for a property [name] that no prototype defines (here only
    [error] and [risk]): the own property of an object, [undefined] on any
    other non-null value, a TypeError on [null]. *)
Definition get_prop (v : JsVal) (name : string) : JsError + option JsVal :=
  match v with
  | JNull => inl TypeError
  | JObj fields => inr (assoc name fields)
  | _ => inr None
  end.

(** ToBoolean. *)
Definition truthy (v : option JsVal) : bool :=
  match v with
  | None => false
  | Some JNull => false
  | Some (JBool b) => b
  | Some (JNum q) => negb (Qnum q =? 0)%Z
  | Some (JStr s) => negb (String.eqb s "")
  | Some (JArr _) => true
  | Some (JObj _) => true
  end.

(** [v === 'text'] *)
Definition strict_eq_str (v : option JsVal) (text : string) : bool :=
  match v with
  | Some (JStr s) => String.eqb s text
  | _ => false
  end.

(** [v !== false] *)
Definition strict_neq_false (v : option JsVal) : bool :=
  match v with
  | Some (JBool false) => false
  | _ => true
  end.

(** String.prototype.toLowerCase on the ASCII letters. *)
Definition lower_ascii (c : ascii) : ascii :=
  let n := nat_of_ascii c in
  if (65 <=? n)%nat && (n <=? 90)%nat then ascii_of_nat (n + 32) else c.

Fixpoint toLowerCase (s : string) : string :=
  match s with
  | EmptyString => EmptyString
  | String c s' => String (lower_ascii c) (toLowerCase s')
  end.

(** [s.startsWith(p)] *)
Definition startsWith (s p : string) : bool := String.prefix p s.

(* ===================================================================== *)
(** ** The JavaScript Map *)
(* ===================================================================== *)

Module JsMap.

Definition t (V : Type) : Type := list (string * V).

Definition empty {V : Type} : t V := [].

Definition get {V : Type} (k : string) (m : t V) : option V := assoc k m.

(** [m.set(k, v)]: an existing key keeps its place, a new key goes last. *)
Fixpoint set {V : Type} (k : string) (v : V) (m : t V) : t V :=
  match m with
  | [] => [(k, v)]
  | (k', v') :: m' =>
      if String.eqb k' k then (k, v) :: m' else (k', v') :: set k v m'
  end.

(** [m.delete(k)] *)
Definition delete {V : Type} (k : string) (m : t V) : t V :=
  filter (fun kv => negb (String.eqb (fst kv) k)) m.

Definition size {V : Type} (m : t V) : nat := length m.

Definition keys {V : Type} (m : t V) : list string := map fst m.

End JsMap.

(* ===================================================================== *)
(** ** Configuration and the verdict cache *)
(* ===================================================================== *)

(** [const CACHE_TTL = 5 * 60 * 1000] *)
Definition CACHE_TTL : Z := 5 * 60 * 1000.

(** PHISHSHIELD_CONFIG.CACHE of config.js. *)
Definition CONFIG_CACHE_TTL : Z := 5 * 60 * 1000.
Definition CONFIG_CACHE_MAX_SIZE : nat := 1000.

Module BADGE_COLORS.
Definition safe := "#10b981".
Definition suspicious := "#f59e0b".
Definition malicious := "#ef4444".
Definition loading := "#3b82f6".
Definition error := "#6b7280".
End BADGE_COLORS.

(** The object [{ result, timestamp }] stored under a cache key. *)
Record CacheEntry : Type := mkEntry {
  result : JsVal;
  timestamp : Z
}.

Definition Cache : Type := JsMap.t CacheEntry.

Definition expired (now : Z) (kv : string * CacheEntry) : bool :=
  (now - timestamp (snd kv) >? CACHE_TTL)%Z.

(** The first loop of [cleanCache]: every entry of the map is visited once
    and deleted by key when it is older than the TTL. *)
Definition sweepExpired (now : Z) (c : Cache) : Cache :=
  fold_left
    (fun m kv => if expired now kv then JsMap.delete (fst kv) m else m)
    c c.

(** [entries.sort((a, b) => a[1].timestamp - b[1].timestamp)]: ascending by
    timestamp; Array.prototype.sort is stable, so entries with equal
    timestamps keep their insertion order. *)
Fixpoint insert_by_timestamp (x : string * CacheEntry)
    (l : list (string * CacheEntry)) : list (string * CacheEntry) :=
  match l with
  | [] => [x]
  | y :: l' =>
      if (timestamp (snd x) <=? timestamp (snd y))%Z
      then x :: y :: l'
      else y :: insert_by_timestamp x l'
  end.

Fixpoint sort_by_timestamp (l : list (string * CacheEntry))
    : list (string * CacheEntry) :=
  match l with
  | [] => []
  | x :: l' => insert_by_timestamp x (sort_by_timestamp l')
  end.

(** The entries the second loop of [cleanCache] deletes:
    [entries[i]] for [0 <= i < entries.length - 500]. *)
Definition evicted (c : Cache) : list (string * CacheEntry) :=
  let entries := sort_by_timestamp c in
  firstn (length entries - 500) entries.

(** The entries of the sorted array the second loop leaves alone. *)
Definition retained (c : Cache) : list (string * CacheEntry) :=
  let entries := sort_by_timestamp c in
  skipn (length entries - 500) entries.

(** [if (urlCache.size > 1000) { ... }] *)
Definition limitSize (c : Cache) : Cache :=
  if (1000 <? JsMap.size c)%nat
  then fold_left (fun m kv => JsMap.delete (fst kv) m) (evicted c) c
  else c.

Definition cleanCache (now : Z) (c : Cache) : Cache :=
  limitSize (sweepExpired now c).

(** [urlCache.set(cacheKey, { result, timestamp: Date.now() }); cleanCache()]:
    the two statements by which [scanUrl] stores a verdict.  [now_store] and
    [now_clean] are the two readings of the clock. *)
Definition put (key : string) (r : JsVal) (now_store now_clean : Z)
    (c : Cache) : Cache :=
  cleanCache now_clean (JsMap.set key (mkEntry r now_store) c).

(* ===================================================================== *)
(** ** Effects: the world, the trace and a state-and-exception monad *)
(* ===================================================================== *)

(** [tabId] as handed to [chrome.action]: [None] is [undefined]. *)
Definition TabId : Type := option Z.

Inductive Event : Type :=
| EvBadgeText (tabId : TabId) (text : option string)
    (* chrome.action.setBadgeText({ text, tabId }) *)
| EvBadgeColor (tabId : TabId) (color : option string)
    (* chrome.action.setBadgeBackgroundColor({ color, tabId }) *)
| EvCacheGet (key : string)          (* urlCache.get(key) *)
| EvCacheSet (key : string)          (* urlCache.set(key, ...) *)
| EvFetch (url : string)             (* fetch(CHECK_URL, { body: { url } }) *)
| EvStorageGet (key : string)        (* chrome.storage.local.get([key], cb) *)
| EvNotify (hostname : string) (verdict : JsVal).
    (* chrome.notifications.create({ ... }) *)

Record World : Type := mkWorld {
  urlCache : Cache;
  trace : list Event
}.

Inductive Completion (A : Type) : Type :=
| Returned (a : A)
| Threw (e : JsError).
Arguments Returned {A} a.
Arguments Threw {A} e.

(** A computation changes the world and either returns or throws; what it did
    to the world before throwing stays done. *)
Definition M (A : Type) : Type := World -> Completion A * World.

Definition ret {A : Type} (a : A) : M A := fun w => (Returned a, w).

Definition throw {A : Type} (e : JsError) : M A := fun w => (Threw e, w).

Definition bind {A B : Type} (m : M A) (k : A -> M B) : M B :=
  fun w =>
    match m w with
    | (Returned a, w') => k a w'
    | (Threw e, w') => (Threw e, w')
    end.

(** [try { body } catch (error) { handler }] *)
Definition try_catch {A : Type} (body : M A) (handler : JsError -> M A) : M A :=
  fun w =>
    match body w with
    | (Returned a, w') => (Returned a, w')
    | (Threw e, w') => handler e w'
    end.

Definition lift {A : Type} (r : JsError + A) : M A :=
  match r with
  | inl e => throw e
  | inr a => ret a
  end.

Definition emit (ev : Event) : M unit :=
  fun w => (Returned tt, mkWorld (urlCache w) (trace w ++ [ev])).

Definition read_cache : M Cache := fun w => (Returned (urlCache w), w).

Definition write_cache (c : Cache) : M unit :=
  fun w => (Returned tt, mkWorld c (trace w)).

Declare Scope js_scope.
Delimit Scope js_scope with js.
Notation "x <- m ;; k" := (bind m (fun x => k))
  (at level 61, m at next level, right associativity) : js_scope.
Notation "m ;; k" := (bind m (fun _ => k))
  (at level 61, right associativity) : js_scope.
Local Open Scope js_scope.

Definition value_of {A : Type} (r : Completion A * World) : Completion A := fst r.
Definition world_of {A : Type} (r : Completion A * World) : World := snd r.

(* ===================================================================== *)
(** ** The background service worker *)
(* ===================================================================== *)

(** What [fetch] followed by [response.json()] yields.  The HTTP status is
    carried along although the worker never looks at it. *)
Inductive FetchOutcome : Type :=
| NetworkError                            (* fetch() rejects *)
| NotJson (status : Z)                    (* response.json() rejects *)
| Json (status : Z) (body : JsVal).       (* response.json() resolves *)

(** What the platform answers during one call of [scanUrl]. *)
Record ScanEnv : Type := mkScanEnv {
  now_check : Z;          (* Date.now() in the freshness test *)
  remote : FetchOutcome;  (* the answer of POST /api/check-url *)
  now_store : Z;          (* Date.now() in urlCache.set *)
  now_clean : Z;          (* Date.now() in cleanCache *)
  showNotifications : option JsVal;
                          (* data.showNotifications in the storage callback *)
  hostname : option string
                          (* new URL(url).hostname; None when the
                             constructor throws *)
}.

(** The key under which [badgeConfig[risk]] looks: a string is its own key,
    an array of one element prints as that element; every other value prints
    as a text ("undefined", "null", "true", a number, "[object Object]", a
    text with commas, the empty text) that names no property of [badgeConfig]
    nor of Object.prototype, which [None] stands for. *)
Fixpoint property_key (v : JsVal) : option string :=
  match v with
  | JStr s => Some s
  | JArr [x] => property_key x
  | _ => None
  end.

Record BadgeConfig : Type := mkBadge {
  badge_text : option string;
  badge_color : option string
}.

(** The properties an object literal inherits from Object.prototype; each is a
    truthy value without [text] or [color]. *)
Definition object_prototype_names : list string :=
  [ "constructor"; "__defineGetter__"; "__defineSetter__"; "hasOwnProperty";
    "__lookupGetter__"; "__lookupSetter__"; "isPrototypeOf";
    "propertyIsEnumerable"; "toString"; "valueOf"; "__proto__";
    "toLocaleString" ].

(** [badgeConfig[risk]]: [None] is [undefined]. *)
Definition badgeConfig (risk : option JsVal) : option BadgeConfig :=
  match match risk with Some v => property_key v | None => None end with
  | None => None
  | Some key =>
      if String.eqb key "safe" then
        Some (mkBadge (Some "✓") (Some BADGE_COLORS.safe))
      else if String.eqb key "suspicious" then
        Some (mkBadge (Some "!") (Some BADGE_COLORS.suspicious))
      else if String.eqb key "malicious" then
        Some (mkBadge (Some "✗") (Some BADGE_COLORS.malicious))
      else if existsb (String.eqb key) object_prototype_names then
        Some (mkBadge None None)
      else None
  end.

Definition setBadgeText (text : option string) (tabId : TabId) : M unit :=
  emit (EvBadgeText tabId text).

Definition setBadgeBackgroundColor (color : option string) (tabId : TabId)
    : M unit :=
  emit (EvBadgeColor tabId color).

Definition updateBadge (risk : option JsVal) (tabId : TabId) : M unit :=
  let config :=
    match badgeConfig risk with
    | Some c => c
    | None => mkBadge (Some "?") (Some BADGE_COLORS.error)
    end in
  setBadgeText (badge_text config) tabId ;;
  setBadgeBackgroundColor (badge_color config) tabId.

(** [showNotification]: reads the setting and, in the callback, creates the
    notification unless the setting is exactly [false].  The callback runs
    outside [scanUrl]'s [try]: when [new URL(url)] throws there, no
    notification is created and [scanUrl] is not affected. *)
Definition showNotification (env : ScanEnv) (verdict : JsVal) : M unit :=
  emit (EvStorageGet "showNotifications") ;;
  if strict_neq_false (showNotifications env) then
    match hostname env with
    | Some h => emit (EvNotify h verdict)
    | None => ret tt
    end
  else ret tt.

(** [cached && Date.now() - cached.timestamp < CACHE_TTL] *)
Definition fresh (env : ScanEnv) (cached : option CacheEntry)
    : option CacheEntry :=
  match cached with
  | Some entry =>
      if (now_check env - timestamp entry <? CACHE_TTL)%Z
      then Some entry else None
  | None => None
  end.

(** [fetch(...)] and [response.json()] of [scanUrl]. *)
Definition fetch_json (outcome : FetchOutcome) (url : string) : M JsVal :=
  emit (EvFetch url) ;;
  match outcome with
  | NetworkError => throw FetchRejected
  | NotJson _ => throw JsonSyntaxError
  | Json _ body => ret body
  end.

(** The [try] block of [scanUrl]. *)
Definition scanUrl_remote (env : ScanEnv) (url cacheKey : string)
    (tabId : TabId) : M JsVal :=
  res <- fetch_json (remote env) url ;;
  err <- lift (get_prop res "error") ;;
  if truthy err then throw (ErrorOf err)
  else
    emit (EvCacheSet cacheKey) ;;
    c <- read_cache ;;
    write_cache (JsMap.set cacheKey (mkEntry res (now_store env)) c) ;;
    c <- read_cache ;;
    write_cache (cleanCache (now_clean env) c) ;;
    risk <- lift (get_prop res "risk") ;;
    updateBadge risk tabId ;;
    (if strict_eq_str risk "malicious"
     then showNotification env res else ret tt) ;;
    ret res.

(** The [catch] block of [scanUrl]. *)
Definition scanUrl_failed (tabId : TabId) (error : JsError) : M JsVal :=
  setBadgeText (Some "!") tabId ;;
  setBadgeBackgroundColor (Some BADGE_COLORS.error) tabId ;;
  ret JNull.

(** [async function scanUrl(url, tabId)].  [url] is [None] when the caller
    passed something that is not a string, on which [url.toLowerCase()]
    throws. *)
Definition scanUrl (env : ScanEnv) (url : option string) (tabId : TabId)
    : M JsVal :=
  setBadgeText (Some "...") tabId ;;
  setBadgeBackgroundColor (Some BADGE_COLORS.loading) tabId ;;
  match url with
  | None => throw TypeError
  | Some url =>
      let cacheKey := toLowerCase url in
      emit (EvCacheGet cacheKey) ;;
      c <- read_cache ;;
      match fresh env (JsMap.get cacheKey c) with
      | Some cached =>
          risk <- lift (get_prop (result cached) "risk") ;;
          updateBadge risk tabId ;;
          ret (result cached)
      | None =>
          try_catch (scanUrl_remote env url cacheKey tabId)
                    (scanUrl_failed tabId)
      end
  end.

(** A tab as [chrome.tabs.get] describes it. *)
Record Tab : Type := mkTab {
  tab_url : option string;
  tab_id : TabId
}.

(** [tab.url && tab.url.startsWith('http')] *)
Definition scannable (url : option string) : bool :=
  match url with
  | Some u => negb (String.eqb u "") && startsWith u "http"
  | None => false
  end.

(** [chrome.tabs.onActivated]: [tab] is [None] when [chrome.tabs.get]
    rejects; the listener's own [catch] swallows whatever is thrown. *)
Definition onActivated (env : ScanEnv) (tab : option Tab) : M unit :=
  try_catch
    (match tab with
     | None => throw TypeError
     | Some tab =>
         if scannable (tab_url tab) then
           scanUrl env (tab_url tab) (tab_id tab) ;; ret tt
         else
           setBadgeText (Some "") (tab_id tab)
     end)
    (fun _ => ret tt).



(** The messages of [chrome.runtime.onMessage] that reach the scan path. *)
Inductive Request : Type :=
| ReqUpdateBadge (risk : option JsVal) (tabId : TabId)
| ReqScanUrl (url : option string) (tabId : TabId) (sender_tab : TabId)
| ReqCheckUrl (url : string).

(** What [sendResponse] is called with. *)
Inductive Response : Type :=
| RespSuccess                    (* { success: true } *)
| RespValue (v : JsVal)          (* sendResponse(result) *)
| RespError (e : JsError).       (* { error: error.message } *)

(** [request.tabId || sender.tab?.id] *)
Definition tab_or_sender (tabId sender_tab : TabId) : TabId :=
  match tabId with
  | Some 0%Z => sender_tab
  | Some n => Some n
  | None => sender_tab
  end.

Definition onMessage (env : ScanEnv) (request : Request) (w : World)
    : Response * World :=
  match request with
  | ReqUpdateBadge risk tabId =>
      (RespSuccess, world_of (updateBadge risk tabId w))
  | ReqScanUrl url tabId sender_tab =>
      match scanUrl env url (tab_or_sender tabId sender_tab) w with
      | (Returned res, w') => (RespValue res, w')     (* .then  *)
      | (Threw e, w') => (RespError e, w')            (* .catch *)
      end
  | ReqCheckUrl url =>
      match fetch_json (remote env) url w with
      | (Returned data, w') => (RespValue data, w')
      | (Threw e, w') => (RespError e, w')
      end
  end.

(** The badge in the slot a [tabId] addresses, after a trace: the last text
    and the last colour set for it. *)
Definition tab_eqb (a b : TabId) : bool :=
  match a, b with
  | Some x, Some y => (x =? y)%Z
  | None, None => true
  | _, _ => false
  end.

Fixpoint shown (tabId : TabId) (evs : list Event) (current : BadgeConfig)
    : BadgeConfig :=
  match evs with
  | [] => current
  | EvBadgeText t text :: evs' =>
      shown tabId evs'
        (if tab_eqb t tabId then mkBadge text (badge_color current)
         else current)
  | EvBadgeColor t color :: evs' =>
      shown tabId evs'
        (if tab_eqb t tabId then mkBadge (badge_text current) color
         else current)
  | _ :: evs' => shown tabId evs' current
  end.

(** The badges [scanUrl] and the listeners set by hand. *)
Definition badge_Loading : BadgeConfig :=
  mkBadge (Some "...") (Some BADGE_COLORS.loading).
Definition badge_Error : BadgeConfig :=
  mkBadge (Some "!") (Some BADGE_COLORS.error).
(** A cleared badge is an empty text; the colour is left as it was. *)
Definition is_Cleared (b : BadgeConfig) : Prop := badge_text b = Some "".

(** The operations on the trace that are I/O in the sense of the scan
    algorithm: consulting the cache and calling the remote service. *)
Definition is_fetch (ev : Event) : bool :=
  match ev with EvFetch _ => true | _ => false end.
Definition is_cache_access (ev : Event) : bool :=
  match ev with EvCacheGet _ | EvCacheSet _ => true | _ => false end.
Definition is_notify (ev : Event) : bool :=
  match ev with EvNotify _ _ => true | _ => false end.

(** The number of remote calls, and of alerts, in a trace. *)
Definition remote_calls (evs : list Event) : nat := length (filter is_fetch evs).
Definition alerts (evs : list Event) : nat := length (filter is_notify evs).

Definition w0 : World := mkWorld JsMap.empty [].

(* ===================================================================== *)
(** ** The popup: bulk scan of the links of a page *)
(* ===================================================================== *)

(** [{ total, safe, suspicious, malicious }] *)
Record Stats : Type := mkStats {
  total : nat;
  safe : nat;
  suspicious : nat;
  malicious : nat
}.

(** The object literal [{ url: link, ...data }] pushed on [results], kept as
    the pair it is built from. *)
Record LinkResult : Type := mkLinkResult {
  link_url : string;
  link_data : JsVal
}.

Inductive PopupEvent : Type :=
| PLinksCount (n : nat)              (* linksCount.textContent = `${n} links` *)
| PFetch (url : string)              (* fetch(CHECK_URL, { body: { url } }) *)
| PShowStats (stats : Stats)         (* this.updateLinksStats(stats) *)
| PStorageGet                        (* chrome.storage.local.get *)
| PStorageSet (pageLinksStats : JsMap.t Stats)
                                     (* chrome.storage.local.set *)
| PHighlight (results : list LinkResult)
                                     (* sendMessage({ action: 'highlightLinks' }) *)
| PToastScanned (n : nat)            (* `Scanned ${n} links!` *)
| PToastFailed.                      (* 'Failed to scan page links' *)

(** What the platform answers during one call of [scanPageLinks]. *)
Record PopupEnv : Type := mkPopupEnv {
  currentUrl : string;
  getLinks : option (list string);
      (* response.links; None when the content script gives no links
         or the message fails *)
  check : string -> FetchOutcome;
      (* the answer of POST /api/check-url for a link *)
  storage_get : option (option (JsMap.t Stats));
      (* None: the read rejects; Some None: no pageLinksStats stored *)
  storage_set_ok : bool
}.

(** [[...new Set(links)]]: the first occurrence of each link, in order. *)
Fixpoint dedup_from (seen l : list string) : list string :=
  match l with
  | [] => []
  | x :: l' =>
      if existsb (String.eqb x) seen then dedup_from seen l'
      else x :: dedup_from (x :: seen) l'
  end.

Definition dedup (l : list string) : list string := dedup_from [] l.

(** The three counters. *)
Definition count_risk (risk : option JsVal) (stats : Stats) : Stats :=
  if strict_eq_str risk "safe" then
    mkStats (total stats) (S (safe stats)) (suspicious stats) (malicious stats)
  else if strict_eq_str risk "suspicious" then
    mkStats (total stats) (safe stats) (S (suspicious stats)) (malicious stats)
  else if strict_eq_str risk "malicious" then
    mkStats (total stats) (safe stats) (suspicious stats) (S (malicious stats))
  else stats.

Record BulkState : Type := mkBulk {
  bulk_stats : Stats;
  bulk_results : list LinkResult;
  bulk_events : list PopupEvent
}.

(** One turn of the loop [for (const link of links.slice(0, 50))]: the body
    of its [try], and its [catch], which only logs. *)
Definition scan_link (env : PopupEnv) (st : BulkState) (link : string)
    : BulkState :=
  let events := bulk_events st ++ [PFetch link] in
  match check env link with
  | NetworkError | NotJson _ => mkBulk (bulk_stats st) (bulk_results st) events
  | Json _ data =>
      let results := bulk_results st ++ [mkLinkResult link data] in
      match get_prop data "risk" with
      | inl _ => mkBulk (bulk_stats st) results events
      | inr risk =>
          let stats := count_risk risk (bulk_stats st) in
          mkBulk stats results (events ++ [PShowStats stats])
      end
  end.

(** From the deduplication to the end of the loop. *)
Definition scan_links (env : PopupEnv) (raw : list string) : BulkState :=
  let links := dedup raw in
  fold_left (scan_link env) (firstn 50 links)
    (mkBulk (mkStats (length links) 0 0 0) [] [PLinksCount (length links)]).

(** [async scanPageLinks()], without the button it disables meanwhile. *)
Definition scanPageLinks (env : PopupEnv) : list PopupEvent :=
  match getLinks env with
  | None => [PToastFailed]
  | Some raw =>
      let st := scan_links env raw in
      match storage_get env with
      | None => bulk_events st ++ [PStorageGet; PToastFailed]
      | Some stored =>
          let pageLinksStats :=
            JsMap.set (currentUrl env) (bulk_stats st)
              (match stored with Some m => m | None => JsMap.empty end) in
          if storage_set_ok env then
            bulk_events st ++
              [PStorageGet; PStorageSet pageLinksStats;
               PHighlight (bulk_results st);
               PToastScanned (length (dedup raw))]
          else
            bulk_events st ++
              [PStorageGet; PStorageSet pageLinksStats; PToastFailed]
      end
  end.

Definition fetched (evs : list PopupEvent) : list string :=
  flat_map (fun ev => match ev with PFetch u => [u] | _ => [] end) evs.

(** Whether the answer to a link falls in a counter. *)
Definition counts_as (tier : string) (o : FetchOutcome) : bool :=
  match o with
  | Json _ data =>
      match get_prop data "risk" with
      | inr risk => strict_eq_str risk tier
      | inl _ => false
      end
  | _ => false
  end.

(* ===================================================================== *)
(** ** The popup: helpers, stored stats and list actions *)
(* ===================================================================== *)

(** [truncateUrl(url, maxLength)] *)
Definition truncateUrl (url : string) (maxLength : nat) : string :=
  if (String.length url <=? maxLength)%nat then url
  else String.append (String.substring 0 maxLength url) "...".

(** The object literal [reasonMap] of [formatReason]. *)
Definition reasonMap : list (string * string) :=
  [
    ("whitelist", "✅ Whitelisted");
    ("blacklist", "🚫 Blacklisted");
    ("model_probability", "🤖 AI Analysis");
    ("ML Analysis", "🤖 AI Analysis");
    ("has_https", "🔒 Secured with HTTPS");
    ("no_https", "⚠️ Missing HTTPS");
    ("personal_domain_pattern", "⚠️ Suspicious Domain Pattern");
    ("ip_address_url", "⚠️ IP Address URL");
    ("no_suspicious_keywords", "✅ No Suspicious Keywords");
    ("sus_keyword", "🚫 Suspicious Keywords Found");
    ("long_url", "📏 URL Too Long");
    ("short_url", "🔗 Shortened URL");
    ("trusted_pattern", "🛡️ Trusted Pattern");
    ("score_adjusted_for_https", "🔒 HTTPS Bonus");
    ("score_adjusted_for_known_tld", "🌐 Known TLD");
    ("score_adjusted_for_short_url", "🔗 Short URL Penalty")
  ].

(** [reason.replace(/_/g, ' ')] *)
Fixpoint replace_underscores (s : string) : string :=
  match s with
  | EmptyString => EmptyString
  | String c s' =>
      String (if Ascii.eqb c "_" then " "%char else c) (replace_underscores s')
  end.

(** [formatReason(reason)] for a string: [reasonMap[reason] || ...].  For a
    name that [reasonMap] inherits from Object.prototype the value found is a
    truthy function or object, which is returned as it is: [None]. *)
Definition formatReason (reason : string) : option string :=
  match assoc reason reasonMap with
  | Some label =>
      if String.eqb label "" then Some (replace_underscores reason)
      else Some label
  | None =>
      if existsb (String.eqb reason) object_prototype_names then None
      else Some (replace_underscores reason)
  end.

(** [loadPageLinksStats()]: what it shows for the page [currentUrl], given
    what [chrome.storage.local.get] yields ([None]: the read rejects;
    [Some None]: nothing stored). *)
Definition loadPageLinksStats (currentUrl : string)
    (stored : option (option (JsMap.t Stats))) : list PopupEvent :=
  match stored with
  | Some (Some pageLinksStats) =>
      match JsMap.get currentUrl pageLinksStats with
      | Some stats => [PShowStats stats]
      | None => []
      end
  | _ => []
  end.

(** PHISHSHIELD_CONFIG.ENDPOINTS of config.js. *)
Module ENDPOINTS.
Definition CHECK_URL := "/api/check-url".
Definition HEALTH := "/".
End ENDPOINTS.





(* ===================================================================== *)
(** ** Notions used to state the properties *)
(* ===================================================================== *)

(** [a] was stored no later than [b]. *)
Definition older (a b : string * CacheEntry) : Prop :=
  (timestamp (snd a) <= timestamp (snd b))%Z.

Definition in_keys (l : list (string * CacheEntry)) (k : string) : bool :=
  existsb (String.eqb k) (map fst l).

(** Whether some entry of [l] under key [k] is older than the TTL. *)
Definition expired_key (now : Z) (l : list (string * CacheEntry))
    (k : string) : bool :=
  existsb (fun kv' => expired now kv' && String.eqb k (fst kv')) l.

(** The caches that stores can build, starting from the empty map the
    worker creates when it is loaded. *)
Inductive reachable : Cache -> Prop :=
| reachable_empty : reachable JsMap.empty
| reachable_put c key r now_store now_clean :
    reachable c -> reachable (put key r now_store now_clean c).

(** A sequence of stores: key, verdict and the two clock readings of each. *)
Definition stores (l : list (string * JsVal * Z * Z)) (c : Cache) : Cache :=
  fold_left
    (fun c s =>
       match s with (key, r, now_store, now_clean) =>
         put key r now_store now_clean c
       end)
    l c.

(** The invariant of the cache of a running worker: keys are unique, the
    size is bounded, and no stored result is [null] (a [null] answer throws
    before it is stored). *)
Definition cache_ok (c : Cache) : Prop :=
  NoDup (JsMap.keys c) /\
  (JsMap.size c <= 1000)%nat /\
  (forall kv, In kv c -> result (snd kv) <> JNull).

(** The failures of the remote call as [scanUrl] tells them: [fetch]
    rejects, the body is not JSON, or the parsed body is [null] or carries a
    truthy [error].  The HTTP status plays no part. *)
Definition remote_fails (o : FetchOutcome) : bool :=
  match o with
  | NetworkError => true
  | NotJson _ => true
  | Json _ body =>
      match get_prop body "error" with
      | inl _ => true
      | inr err => truthy err
      end
  end.

(** [v.risk] of a value that is not [null]. *)
Definition risk_of (v : JsVal) : option JsVal :=
  match get_prop v "risk" with
  | inr risk => risk
  | inl _ => None
  end.

(** The two calls of [updateBadge]. *)
Definition badge_events (risk : option JsVal) (tabId : TabId) : list Event :=
  let config :=
    match badgeConfig risk with
    | Some c => c
    | None => mkBadge (Some "?") (Some BADGE_COLORS.error)
    end in
  [EvBadgeText tabId (badge_text config);
   EvBadgeColor tabId (badge_color config)].

(** The calls of [showNotification]. *)
Definition notification_events (env : ScanEnv) (verdict : JsVal)
    : list Event :=
  EvStorageGet "showNotifications" ::
  (if strict_neq_false (showNotifications env) then
     match hostname env with
     | Some h => [EvNotify h verdict]
     | None => []
     end
   else []).

(** The two calls with which [scanUrl] starts. *)
Definition loading_events (tabId : TabId) : list Event :=
  [EvBadgeText tabId (Some "..."); EvBadgeColor tabId (Some BADGE_COLORS.loading)].

(** The two calls of the [catch] block. *)
Definition error_events (tabId : TabId) : list Event :=
  [EvBadgeText tabId (Some "!"); EvBadgeColor tabId (Some BADGE_COLORS.error)].

(** The body the remote service answered with, when it did. *)
Definition body_of (o : FetchOutcome) : JsVal :=
  match o with
  | Json _ body => body
  | _ => JNull
  end.

(** A completed scan that yields a Malicious verdict. *)
Definition yields_malicious (r : Completion JsVal) : Prop :=
  exists v, r = Returned v /\ strict_eq_str (risk_of v) "malicious" = true.

(** The scan found nothing fresh in the cache and went to the remote
    service. *)
Definition cache_miss (env : ScanEnv) (url : string) (w : World) : Prop :=
  fresh env (JsMap.get (toLowerCase url) (urlCache w)) = None.

(** The scanned links that fall in a counter. *)
Definition tier_count (tier : string) (env : PopupEnv) (l : list string)
    : nat :=
  length (filter (fun u => counts_as tier (check env u)) l).

(** What the answer to one link adds to a counter. *)
Definition bump (env : PopupEnv) (tier : string) (link : string) : nat :=
  if counts_as tier (check env link) then 1 else 0.

(** Whether an answer falls in one of the three counters. *)
Definition in_a_tier (data : JsVal) : bool :=
  strict_eq_str (risk_of data) "safe" ||
  strict_eq_str (risk_of data) "suspicious" ||
  strict_eq_str (risk_of data) "malicious".

(** The sum of the three counters. *)
Definition counted (s : Stats) : nat := safe s + suspicious s + malicious s.

Definition is_badge (ev : Event) : bool :=
  match ev with EvBadgeText _ _ | EvBadgeColor _ _ => true | _ => false end.

(** Consulting the cache or calling the remote service. *)
Definition is_io (ev : Event) : bool := is_fetch ev || is_cache_access ev.

(* ===================================================================== *)
(** ** Data for the examples *)
(* ===================================================================== *)

Module Examples.

(** [{ risk: "malicious", score: 0.92, reasons: ["no_https"] }] *)
Definition malicious_verdict : JsVal :=
  JObj [("risk", JStr "malicious"); ("score", JNum (92 # 100)%Q);
        ("reasons", JArr [JStr "no_https"])].

Definition safe_verdict : JsVal :=
  JObj [("risk", JStr "safe"); ("score", JNum (3 # 100)%Q);
        ("reasons", JArr [JStr "has_https"])].

(** An answer that carries both an [error] and a risk tier. *)
Definition error_with_risk : JsVal :=
  JObj [("risk", JStr "safe"); ("score", JNum (3 # 100)%Q);
        ("reasons", JArr []); ("error", JStr "lookup degraded")].

(** An answer that carries nothing but an [error]. *)
Definition error_only : JsVal := JObj [("error", JStr "bad request")].

Definition tab1 : TabId := Some 1%Z.

(** The remote service answers Malicious; notifications are switched on. *)
Definition first_scan : ScanEnv :=
  mkScanEnv 0 (Json 200 malicious_verdict) 1000 1000
    (Some (JBool true)) (Some "example.com").


(** The world [first_scan] leaves behind, with an empty trace. *)
Definition after_first_scan : World :=
  mkWorld
    (urlCache
       (world_of (scanUrl first_scan (Some "http://EXAMPLE.com/a") tab1 w0)))
    [].

(** The remote service is unreachable. *)
Definition offline : ScanEnv :=
  mkScanEnv 0 NetworkError 0 0 (Some (JBool true)) (Some "example.com").



(** Six minutes after [first_scan] stored its verdict. *)
Definition six_minutes_later : ScanEnv :=
  mkScanEnv 361000 (Json 200 safe_verdict) 361200 361200
    (Some (JBool true)) (Some "example.com").

(** Notifications are switched off. *)
Definition muted : ScanEnv :=
  mkScanEnv 0 (Json 200 malicious_verdict) 1000 1000
    (Some (JBool false)) (Some "example.com").


Definition internal_page : Tab :=
  mkTab (Some "chrome://extensions/") tab1.

(** A thousand verdicts, stored one millisecond apart. *)
Definition full_cache : Cache :=
  stores
    (map (fun n => (HexString.of_nat n, safe_verdict, Z.of_nat n, Z.of_nat n))
         (seq 0 1000))
    JsMap.empty.

(** A page with one link, which the remote service answers with an error
    and a risk tier. *)
Definition page_with_error : PopupEnv :=
  mkPopupEnv "http://example.com/page" (Some ["http://example.com/a"])
    (fun _ => Json 200 error_with_risk) (Some None) true.

(** A page with one link, which the remote service answers with a bare
    error. *)
Definition page_with_bare_error : PopupEnv :=
  mkPopupEnv "http://example.com/page" (Some ["http://example.com/a"])
    (fun _ => Json 400 error_only) (Some None) true.

(** 120 links, all different. *)
Definition many_links : list string :=
  map (fun n => String.append "http://example.com/" (HexString.of_nat n))
    (seq 0 120).

Definition page_with_many_links : PopupEnv :=
  mkPopupEnv "http://example.com/page" (Some many_links)
    (fun _ => Json 200 safe_verdict) (Some None) true.

End Examples.

(* ===================================================================== *)
(** ** Further notions and data *)
(* ===================================================================== *)

(** One call of [scanUrl]: what the platform answers, the URL and the tab. *)
Definition ScanCall : Type := (ScanEnv * option string * TabId)%type.

(** The world after a sequence of scans. *)
Definition run_scans (calls : list ScanCall) (w : World) : World :=
  fold_left
    (fun w call =>
       match call with (env, url, tabId) => world_of (scanUrl env url tabId w) end)
    calls w.

(** Not older than the TTL at [now]. *)
Definition alive (now : Z) (kv : string * CacheEntry) : bool :=
  negb (expired now kv).

Definition has_underscore (s : string) : bool :=
  existsb (fun c => Ascii.eqb c "_") (list_ascii_of_string s).

(** What the answer to a link puts on [results]. *)
Definition result_of (env : PopupEnv) (link : string) : list LinkResult :=
  match check env link with
  | Json _ data => [mkLinkResult link data]
  | _ => []
  end.

Definition is_highlight (ev : PopupEvent) : bool :=
  match ev with PHighlight _ => true | _ => false end.

Definition is_scanned_toast (ev : PopupEvent) : bool :=
  match ev with PToastScanned _ => true | _ => false end.




(** The events the loop of the bulk scan can add. *)
Definition is_loop_event (ev : PopupEvent) : bool :=
  match ev with
  | PLinksCount _ | PFetch _ | PShowStats _ => true
  | _ => false
  end.


Module MoreExamples.

(** Three verdicts, the middle one long expired at time 400000. *)
Definition mixed_cache : Cache :=
  [("http://a.example/", mkEntry Examples.safe_verdict 390000);
   ("http://b.example/", mkEntry Examples.malicious_verdict 1000);
   ("http://c.example/", mkEntry Examples.safe_verdict 399000)].

(** Stats stored earlier for another page. *)
Definition other_page_stats : JsMap.t Stats :=
  [("http://other.example/", mkStats 7 5 1 1)].

(** A page with three links, one of them twice; the second link cannot be
    fetched. *)
Definition page_with_failure : PopupEnv :=
  mkPopupEnv "http://example.com/page"
    (Some ["http://a.example/"; "http://b.example/"; "http://a.example/";
           "http://c.example/"])
    (fun u => if String.eqb u "http://b.example/" then NetworkError
              else Json 200 Examples.safe_verdict)
    (Some (Some other_page_stats)) true.

(** The same page when the stats cannot be written. *)
Definition page_storage_full : PopupEnv :=
  mkPopupEnv "http://example.com/page"
    (Some ["http://a.example/"])
    (fun _ => Json 200 Examples.safe_verdict)
    (Some None) false.

(** Exactly five minutes after the first scan of [Examples] stored its
    verdict. *)
Definition at_the_ttl : ScanEnv :=
  mkScanEnv 301000 (Json 200 Examples.safe_verdict) 301100 301100
    (Some (JBool true)) (Some "example.com").

(** Two verdicts stored a second apart. *)
Definition small_cache : Cache :=
  [("http://a.example/", mkEntry Examples.safe_verdict 1000);
   ("http://b.example/", mkEntry Examples.malicious_verdict 2000)].

End MoreExamples.

(* ===================================================================== *)
(** * Facts about lists used below *)
(* ===================================================================== *)

Section ListFacts.
Context {A : Type}.

Lemma filter_twice (f g : A -> bool) (l : list A) :
  filter f (filter g l) = filter (fun x => g x && f x) l.
Proof.
  induction l as [|a l IH]; simpl; [reflexivity|].
  destruct (g a); simpl; [destruct (f a)|]; now rewrite IH.
Qed.

Lemma filter_perm (f : A -> bool) (l l' : list A) :
  Permutation l l' -> Permutation (filter f l) (filter f l').
Proof.
  induction 1 as [|x l l' _ IH|x y l|l l' l'' _ IH1 _ IH2]; simpl.
  - constructor.
  - destruct (f x); [now constructor|exact IH].
  - destruct (f x), (f y); try reflexivity. apply perm_swap.
  - now transitivity (filter f l').
Qed.

Lemma filter_none (f : A -> bool) (l : list A) :
  (forall x, In x l -> f x = false) -> filter f l = [].
Proof.
  induction l as [|a l IH]; simpl; intros H; [reflexivity|].
  rewrite (H a (or_introl eq_refl)). apply IH. intros; apply H; now right.
Qed.

Lemma filter_all (f : A -> bool) (l : list A) :
  (forall x, In x l -> f x = true) -> filter f l = l.
Proof.
  induction l as [|a l IH]; simpl; intros H; [reflexivity|].
  rewrite (H a (or_introl eq_refl)). f_equal. apply IH.
  intros; apply H; now right.
Qed.

Lemma sorted_app_le (R : A -> A -> Prop) (l1 l2 : list A) :
  StronglySorted R (l1 ++ l2) ->
  forall x y, In x l1 -> In y l2 -> R x y.
Proof.
  induction l1 as [|a l1 IH]; simpl; intros Hs x y Hx Hy; [easy|].
  apply StronglySorted_inv in Hs as [Hs Hall].
  destruct Hx as [<-|Hx].
  - rewrite Forall_forall in Hall. apply Hall, in_or_app. now right.
  - now apply IH.
Qed.

Lemma NoDup_app_disjoint (l1 l2 : list A) :
  NoDup (l1 ++ l2) -> forall x, In x l1 -> In x l2 -> False.
Proof.
  induction l1 as [|a l1 IH]; simpl; intros Hn x Hx Hy; [easy|].
  apply NoDup_cons_iff in Hn as [Hnotin Hn].
  destruct Hx as [<-|Hx].
  - apply Hnotin, in_or_app. now right.
  - now apply (IH Hn x).
Qed.

End ListFacts.

(* ===================================================================== *)
(** * The verdict cache *)
(* ===================================================================== *)

Section CacheFacts.

Implicit Types (c m : Cache) (kv : string * CacheEntry) (k : string).

Lemma in_keys_In l k : in_keys l k = true <-> In k (map fst l).
Proof.
  unfold in_keys. rewrite existsb_exists. split.
  - intros (x & Hx & Heq). apply String.eqb_eq in Heq. now subst.
  - intros H. exists k. split; [exact H|apply String.eqb_refl].
Qed.

Lemma keys_unique c a b :
  NoDup (JsMap.keys c) -> In a c -> In b c -> fst a = fst b -> a = b.
Proof.
  unfold JsMap.keys.
  induction c as [|x c IH]; simpl; intros Hn Ha Hb Heq; [easy|].
  apply NoDup_cons_iff in Hn as [Hx Hn].
  destruct Ha as [->|Ha], Hb as [->|Hb]; auto.
  - exfalso. apply Hx. rewrite Heq. now apply in_map.
  - exfalso. apply Hx. rewrite <- Heq. now apply in_map.
Qed.

Lemma keys_filter (f : string * CacheEntry -> bool) c :
  NoDup (JsMap.keys c) -> NoDup (JsMap.keys (filter f c)).
Proof.
  unfold JsMap.keys.
  induction c as [|x c IH]; simpl; intros Hn; [constructor|].
  apply NoDup_cons_iff in Hn as [Hx Hn].
  destruct (f x); simpl; [|now apply IH].
  constructor; [|now apply IH].
  intros Hin. apply Hx. apply in_map_iff in Hin as (y & Hy & Hin).
  apply filter_In in Hin as [Hin _]. rewrite <- Hy. now apply in_map.
Qed.

(** *** Map operations *)

Lemma get_In k c e : JsMap.get k c = Some e -> In (k, e) c.
Proof.
  unfold JsMap.get.
  induction c as [|[k' v] c IH]; simpl; [discriminate|].
  destruct (String.eqb k' k) eqn:E.
  - apply String.eqb_eq in E. intros [= ->]. left. now subst.
  - intros H. right. now apply IH.
Qed.

Lemma In_get k c e :
  NoDup (JsMap.keys c) -> In (k, e) c -> JsMap.get k c = Some e.
Proof.
  unfold JsMap.get, JsMap.keys.
  induction c as [|[k' v] c IH]; simpl; intros Hn Hin; [easy|].
  apply NoDup_cons_iff in Hn as [Hx Hn].
  destruct Hin as [[= -> ->]|Hin].
  - now rewrite String.eqb_refl.
  - destruct (String.eqb k' k) eqn:E; [|now apply IH].
    apply String.eqb_eq in E. subst k'. exfalso. apply Hx.
    change k with (fst (k, e)). now apply in_map.
Qed.

Lemma get_None k c : JsMap.get k c = None <-> ~ In k (JsMap.keys c).
Proof.
  unfold JsMap.get, JsMap.keys.
  induction c as [|[k' v] c IH]; simpl; [tauto|].
  destruct (String.eqb k' k) eqn:E.
  - apply String.eqb_eq in E. split; [discriminate|]. intros H. tauto.
  - apply String.eqb_neq in E. rewrite IH. tauto.
Qed.

Lemma set_present k v c :
  In k (JsMap.keys c) ->
  JsMap.keys (JsMap.set k v c) = JsMap.keys c.
Proof.
  unfold JsMap.keys.
  induction c as [|[k' v'] c IH]; simpl; intros Hin; [easy|].
  destruct (String.eqb k' k) eqn:E; simpl.
  - apply String.eqb_eq in E. now subst.
  - apply String.eqb_neq in E. f_equal. apply IH. tauto.
Qed.

Lemma set_absent k v c :
  ~ In k (JsMap.keys c) -> JsMap.set k v c = c ++ [(k, v)].
Proof.
  unfold JsMap.keys.
  induction c as [|[k' v'] c IH]; simpl; intros Hin; [reflexivity|].
  destruct (String.eqb k' k) eqn:E.
  - apply String.eqb_eq in E. tauto.
  - f_equal. apply IH. tauto.
Qed.

Lemma set_keys_NoDup k v c :
  NoDup (JsMap.keys c) -> NoDup (JsMap.keys (JsMap.set k v c)).
Proof.
  intros Hn. destruct (in_dec string_dec k (JsMap.keys c)) as [Hin|Hout].
  - now rewrite set_present.
  - rewrite set_absent by exact Hout. unfold JsMap.keys in *.
    rewrite map_app. simpl. apply NoDup_app; auto.
    + constructor; [easy|constructor].
    + intros a Ha [<-|[]]. contradiction.
Qed.

Lemma set_size k v c :
  JsMap.size (JsMap.set k v c) =
  if in_dec string_dec k (JsMap.keys c) then JsMap.size c
  else S (JsMap.size c).
Proof.
  unfold JsMap.size. destruct (in_dec string_dec k (JsMap.keys c)) as [Hin|Hout].
  - rewrite <- (length_map fst (JsMap.set k v c)), <- (length_map fst c).
    fold (JsMap.keys (JsMap.set k v c)). fold (JsMap.keys c).
    now rewrite set_present.
  - rewrite set_absent by exact Hout. rewrite length_app. simpl. lia.
Qed.

Lemma get_set_same {V : Type} k (v : V) (m : JsMap.t V) :
  JsMap.get k (JsMap.set k v m) = Some v.
Proof.
  unfold JsMap.get.
  induction m as [|[k' v'] m' IH]; simpl.
  - now rewrite String.eqb_refl.
  - destruct (String.eqb k' k) eqn:E; simpl.
    + now rewrite String.eqb_refl.
    + now rewrite E.
Qed.

Lemma set_In k v c kv :
  In kv (JsMap.set k v c) -> kv = (k, v) \/ In kv c.
Proof.
  induction c as [|[k' v'] c IH]; simpl.
  - intros [<-|[]]. now left.
  - destruct (String.eqb k' k); simpl.
    + intros [<-|H]; auto.
    + intros [<-|H]; auto. destruct (IH H); auto.
Qed.

End CacheFacts.

Section SweepFacts.

Implicit Types (c m : Cache) (kv : string * CacheEntry) (k : string).

Lemma delete_all (l : list (string * CacheEntry)) m :
  fold_left (fun m kv => JsMap.delete (fst kv) m) l m =
  filter (fun kv => negb (in_keys l (fst kv))) m.
Proof.
  revert m. induction l as [|x l IH]; intros m; simpl.
  - symmetry. apply filter_all. reflexivity.
  - rewrite IH. unfold JsMap.delete. rewrite filter_twice.
    apply filter_ext. intros kv. unfold in_keys. simpl.
    now rewrite negb_orb.
Qed.

Lemma sweep_fold now (l : list (string * CacheEntry)) m :
  fold_left
    (fun m kv => if expired now kv then JsMap.delete (fst kv) m else m) l m =
  filter (fun kv => negb (expired_key now l (fst kv))) m.
Proof.
  revert m. induction l as [|x l IH]; intros m; simpl.
  - symmetry. apply filter_all. reflexivity.
  - rewrite IH. destruct (expired now x); simpl.
    + unfold JsMap.delete. rewrite filter_twice. apply filter_ext.
      intros kv. now rewrite negb_orb.
    + reflexivity.
Qed.

Lemma expired_key_own now c kv :
  NoDup (JsMap.keys c) -> In kv c ->
  expired_key now c (fst kv) = expired now kv.
Proof.
  intros Hn Hin. unfold expired_key.
  destruct (expired now kv) eqn:E.
  - apply existsb_exists. exists kv. rewrite E, String.eqb_refl. auto.
  - destruct (existsb _ c) eqn:Ex; [|reflexivity].
    apply existsb_exists in Ex as (kv' & Hin' & H).
    apply andb_true_iff in H as [Hexp Hk]. apply String.eqb_eq in Hk.
    rewrite (keys_unique c kv kv' Hn Hin Hin' Hk) in E. congruence.
Qed.

(** The first loop removes exactly the entries older than the TTL. *)
Lemma sweepExpired_filter now c :
  NoDup (JsMap.keys c) ->
  sweepExpired now c = filter (fun kv => negb (expired now kv)) c.
Proof.
  intros Hn. unfold sweepExpired. rewrite sweep_fold.
  apply filter_ext_in. intros kv Hin. now rewrite expired_key_own.
Qed.

Lemma sweepExpired_size now c :
  (JsMap.size (sweepExpired now c) <= JsMap.size c)%nat.
Proof.
  unfold sweepExpired, JsMap.size. rewrite sweep_fold.
  apply filter_length_le.
Qed.

Lemma sweepExpired_In now c kv : In kv (sweepExpired now c) -> In kv c.
Proof.
  unfold sweepExpired. rewrite sweep_fold. intros H.
  now apply filter_In in H.
Qed.

Lemma sweepExpired_keys now c :
  NoDup (JsMap.keys c) -> NoDup (JsMap.keys (sweepExpired now c)).
Proof.
  unfold sweepExpired. rewrite sweep_fold. apply keys_filter.
Qed.

(** *** The sort *)

Lemma insert_perm x l : Permutation (insert_by_timestamp x l) (x :: l).
Proof.
  induction l as [|y l IH]; simpl; [reflexivity|].
  destruct (timestamp (snd x) <=? timestamp (snd y))%Z; [reflexivity|].
  rewrite IH. apply perm_swap.
Qed.

Lemma sort_perm l : Permutation (sort_by_timestamp l) l.
Proof.
  induction l as [|x l IH]; simpl; [reflexivity|].
  rewrite insert_perm. now constructor.
Qed.

Lemma sort_length l : length (sort_by_timestamp l) = length l.
Proof. apply Permutation_length, sort_perm. Qed.

Lemma insert_sorted x l :
  StronglySorted older l -> StronglySorted older (insert_by_timestamp x l).
Proof.
  induction l as [|y l IH]; simpl; intros Hs.
  - repeat constructor.
  - apply StronglySorted_inv in Hs as [Hs Hall].
    destruct (timestamp (snd x) <=? timestamp (snd y))%Z eqn:E.
    + apply Z.leb_le in E. constructor; [now constructor|].
      constructor; [exact E|].
      eapply Forall_impl; [|exact Hall]. unfold older. intros; lia.
    + apply Z.leb_gt in E. constructor; [now apply IH|].
      apply Forall_forall. intros z Hz.
      apply (Permutation_in _ (insert_perm x l)) in Hz.
      destruct Hz as [<-|Hz]; [unfold older; lia|].
      rewrite Forall_forall in Hall. now apply Hall.
Qed.

Lemma sort_sorted l : StronglySorted older (sort_by_timestamp l).
Proof.
  induction l as [|x l IH]; simpl; [constructor|now apply insert_sorted].
Qed.



End SweepFacts.

Section CapacityFacts.

Implicit Types (c m : Cache) (kv : string * CacheEntry) (k : string).

Lemma evicted_retained c : Permutation c (evicted c ++ retained c).
Proof.
  unfold evicted, retained. cbv zeta. rewrite firstn_skipn.
  symmetry. apply sort_perm.
Qed.

Lemma retained_length c :
  (500 <= JsMap.size c)%nat -> length (retained c) = 500%nat.
Proof.
  unfold retained, JsMap.size. cbv zeta. intros H.
  rewrite length_skipn, sort_length. lia.
Qed.

Lemma evicted_older_than_retained c a b :
  In a (evicted c) -> In b (retained c) -> older a b.
Proof.
  apply sorted_app_le. unfold evicted, retained. cbv zeta.
  rewrite firstn_skipn. apply sort_sorted.
Qed.

(** What the second loop leaves, as a subsequence of the map. *)
Lemma limitSize_filter c :
  (1000 < JsMap.size c)%nat ->
  limitSize c = filter (fun kv => negb (in_keys (evicted c) (fst kv))) c.
Proof.
  intros H. unfold limitSize. apply Nat.ltb_lt in H. rewrite H.
  apply delete_all.
Qed.

Lemma limitSize_sub c :
  (1000 < JsMap.size c)%nat ->
  Permutation (limitSize c)
    (filter (fun kv => negb (in_keys (evicted c) (fst kv))) (retained c)).
Proof.
  intros H. rewrite limitSize_filter by exact H.
  rewrite (filter_perm _ _ _ (evicted_retained c)), filter_app.
  rewrite filter_none; [reflexivity|].
  intros x Hx. apply negb_false_iff, in_keys_In. now apply in_map.
Qed.

(** With unique keys the second loop leaves exactly the last 500 entries
    of the sorted array. *)
Lemma limitSize_retained c :
  (1000 < JsMap.size c)%nat -> NoDup (JsMap.keys c) ->
  Permutation (limitSize c) (retained c).
Proof.
  intros H Hn. rewrite limitSize_sub by exact H.
  rewrite filter_all; [reflexivity|].
  intros x Hx. apply negb_true_iff.
  destruct (in_keys (evicted c) (fst x)) eqn:E; [exfalso|reflexivity].
  apply in_keys_In in E.
  assert (Hn' : NoDup (map fst (evicted c) ++ map fst (retained c))).
  { rewrite <- map_app. eapply Permutation_NoDup; [|exact Hn].
    apply Permutation_map, evicted_retained. }
  apply (NoDup_app_disjoint _ _ Hn' (fst x) E). now apply in_map.
Qed.

Lemma limitSize_size c : (JsMap.size (limitSize c) <= 1000)%nat.
Proof.
  destruct (Nat.ltb_spec 1000 (JsMap.size c)) as [H|H].
  - unfold JsMap.size at 1.
    rewrite (Permutation_length (limitSize_sub c H)).
    etransitivity; [apply filter_length_le|].
    rewrite retained_length; unfold JsMap.size in *; lia.
  - unfold limitSize. rewrite (proj2 (Nat.ltb_ge _ _) H). exact H.
Qed.

Lemma limitSize_In c kv : In kv (limitSize c) -> In kv c.
Proof.
  unfold limitSize. destruct (1000 <? JsMap.size c)%nat; [|easy].
  rewrite delete_all. intros H. now apply filter_In in H.
Qed.

Lemma limitSize_keys c :
  NoDup (JsMap.keys c) -> NoDup (JsMap.keys (limitSize c)).
Proof.
  unfold limitSize. destruct (1000 <? JsMap.size c)%nat; [|easy].
  rewrite delete_all. apply keys_filter.
Qed.

Lemma cleanCache_size now c : (JsMap.size (cleanCache now c) <= 1000)%nat.
Proof. apply limitSize_size. Qed.

Lemma cleanCache_In now c kv : In kv (cleanCache now c) -> In kv c.
Proof. intros H. now apply sweepExpired_In with now, limitSize_In. Qed.

Lemma cleanCache_keys now c :
  NoDup (JsMap.keys c) -> NoDup (JsMap.keys (cleanCache now c)).
Proof. intros H. now apply limitSize_keys, sweepExpired_keys. Qed.

Lemma reachable_keys c : reachable c -> NoDup (JsMap.keys c).
Proof.
  induction 1 as [|c key r t1 t2 _ IH]; [constructor|].
  now apply cleanCache_keys, set_keys_NoDup.
Qed.

Lemma reachable_size c : reachable c -> (JsMap.size c <= 1000)%nat.
Proof.
  induction 1 as [|c key r t1 t2 _ IH]; [simpl; lia|].
  apply cleanCache_size.
Qed.

Lemma put_ok key r t1 t2 c :
  r <> JNull -> cache_ok c -> cache_ok (put key r t1 t2 c).
Proof.
  intros Hr (Hn & Hs & Hres). unfold put. repeat split.
  - now apply cleanCache_keys, set_keys_NoDup.
  - apply cleanCache_size.
  - intros kv Hin. apply cleanCache_In, set_In in Hin.
    destruct Hin as [->|Hin]; [exact Hr|now apply Hres].
Qed.

End CapacityFacts.

(** C2, as the code has it. After any sequence of stores the cache holds at
    most the configured maximum of 1000 entries.  [cleanCache] sweeps the
    expired entries before it tests the size: whenever more than 1000
    entries are left after the insertion and that sweep, the capacity sweep
    leaves exactly half the maximum, 500 entries, the last 500 of the array
    sorted by timestamp, so that no entry it dropped was stored later than
    an entry it kept; and whenever at most 1000 are left, there is no
    capacity sweep and the cache is what the expiry sweep left. *)
Theorem cache_capacity_bound :
  forall c, reachable c ->
    (JsMap.size c <= CONFIG_CACHE_MAX_SIZE)%nat /\
    forall key r now_store now_clean,
      let before :=
        sweepExpired now_clean (JsMap.set key (mkEntry r now_store) c) in
      let after := put key r now_store now_clean c in
      (JsMap.size after <= CONFIG_CACHE_MAX_SIZE)%nat /\
      ((CONFIG_CACHE_MAX_SIZE < JsMap.size before)%nat ->
       JsMap.size after = Nat.div2 CONFIG_CACHE_MAX_SIZE /\
       Permutation after (retained before) /\
       forall kept dropped,
         In kept after -> In dropped before -> ~ In dropped after ->
         older dropped kept) /\
      ((JsMap.size before <= CONFIG_CACHE_MAX_SIZE)%nat -> after = before).
Proof.
  intros c Hr. split; [now apply reachable_size|].
  intros key r t1 t2 before after. split; [apply cleanCache_size|].
  split.
  2:{ intros Hsmall. subst after before. unfold put, cleanCache, limitSize.
      unfold CONFIG_CACHE_MAX_SIZE in Hsmall.
      now rewrite (proj2 (Nat.ltb_ge _ _) Hsmall). }
  intros Hbig.
  assert (Hn : NoDup (JsMap.keys before)).
  { apply sweepExpired_keys, set_keys_NoDup, reachable_keys, Hr. }
  assert (Hperm : Permutation after (retained before)).
  { apply limitSize_retained; assumption. }
  split; [|split].
  - unfold JsMap.size at 1. rewrite (Permutation_length Hperm).
    apply retained_length. unfold CONFIG_CACHE_MAX_SIZE in Hbig. lia.
  - exact Hperm.
  - intros kept dropped Hk Hd Hnd.
    apply evicted_older_than_retained with before.
    + apply (Permutation_in _ (evicted_retained before)) in Hd.
      apply in_app_or in Hd as [Hd|Hd]; [exact Hd|].
      exfalso. apply Hnd. apply Permutation_in with (retained before); auto.
      now symmetry.
    + now apply Permutation_in with after.
Qed.

(* ===================================================================== *)
(** * The scan: one equation per path *)
(* ===================================================================== *)

Ltac run_js :=
  unfold scanUrl, scanUrl_remote, scanUrl_failed, try_catch, fetch_json,
    showNotification, updateBadge, setBadgeText, setBadgeBackgroundColor,
    bind, ret, throw, lift, emit, read_cache, write_cache,
    value_of, world_of;
  cbn [fst snd urlCache trace].

Ltac tidy_trace := repeat rewrite <- app_assoc; cbn [app].

Section ScanPaths.

Variables (env : ScanEnv) (url : string) (tabId : TabId) (w : World).

(** Not a string: the badge is left on Loading and the call throws. *)
Lemma scanUrl_not_a_string :
  scanUrl env None tabId w =
  (Threw TypeError, mkWorld (urlCache w) (trace w ++ loading_events tabId)).
Proof. run_js. tidy_trace. reflexivity. Qed.

(** Answered from the cache. *)
Lemma scanUrl_hit entry :
  fresh env (JsMap.get (toLowerCase url) (urlCache w)) = Some entry ->
  result entry <> JNull ->
  scanUrl env (Some url) tabId w =
  (Returned (result entry),
   mkWorld (urlCache w)
     (trace w ++ loading_events tabId ++ [EvCacheGet (toLowerCase url)] ++
      badge_events (risk_of (result entry)) tabId)).
Proof.
  intros Hf Hnn. run_js. rewrite Hf.
  unfold risk_of, badge_events.
  destruct (result entry) eqn:E; try congruence; cbn; tidy_trace;
    reflexivity.
Qed.

(** The remote call fails. *)
Lemma scanUrl_miss_failed :
  cache_miss env url w -> remote_fails (remote env) = true ->
  scanUrl env (Some url) tabId w =
  (Returned JNull,
   mkWorld (urlCache w)
     (trace w ++ loading_events tabId ++
      [EvCacheGet (toLowerCase url); EvFetch url] ++ error_events tabId)).
Proof.
  unfold cache_miss. intros Hf Hfail. run_js. rewrite Hf.
  unfold remote_fails in Hfail.
  destruct (remote env) as [|st|st body]; cbn; tidy_trace; try reflexivity.
  destruct body; cbn in Hfail |- *; try discriminate; try rewrite Hfail;
    cbn; tidy_trace; reflexivity.
Qed.

(** The remote call succeeds. *)
Lemma scanUrl_miss_stored :
  cache_miss env url w -> remote_fails (remote env) = false ->
  let res := body_of (remote env) in
  scanUrl env (Some url) tabId w =
  (Returned res,
   mkWorld (put (toLowerCase url) res (now_store env) (now_clean env) (urlCache w))
     (trace w ++ loading_events tabId ++
      [EvCacheGet (toLowerCase url); EvFetch url; EvCacheSet (toLowerCase url)] ++
      badge_events (risk_of res) tabId ++
      (if strict_eq_str (risk_of res) "malicious"
       then notification_events env res else []))).
Proof.
  unfold cache_miss. intros Hf Hok. cbv zeta. run_js.
  rewrite Hf. unfold remote_fails in Hok.
  destruct (remote env) as [|st|st body]; try discriminate.
  unfold body_of, risk_of, badge_events, notification_events, put.
  destruct body; cbn in Hok |- *; try discriminate; try rewrite Hok; cbn;
    repeat match goal with
      | |- context [strict_eq_str ?r ?t] => destruct (strict_eq_str r t)
      | |- context [strict_neq_false ?v] => destruct (strict_neq_false v)
      | |- context [hostname env] => destruct (hostname env)
      end; cbn; tidy_trace; reflexivity.
Qed.

End ScanPaths.

(* ===================================================================== *)
(** * Traces and badges *)
(* ===================================================================== *)

Section TraceFacts.

Implicit Types (evs pre post : list Event) (b : BadgeConfig).

Lemma tab_eqb_refl (t : TabId) : tab_eqb t t = true.
Proof. destruct t as [z|]; simpl; [apply Z.eqb_refl|reflexivity]. Qed.

Lemma shown_app t evs evs' b :
  shown t (evs ++ evs') b = shown t evs' (shown t evs b).
Proof.
  revert b. induction evs as [|ev evs IH]; intros b; simpl; [reflexivity|].
  destruct ev; apply IH.
Qed.

Lemma shown_no_badge t evs b :
  forallb (fun ev => negb (is_badge ev)) evs = true -> shown t evs b = b.
Proof.
  revert b. induction evs as [|ev evs IH]; intros b; simpl; [reflexivity|].
  intros H. apply andb_true_iff in H as [Hev H].
  destruct ev; simpl in Hev; try discriminate; now apply IH.
Qed.

Lemma shown_loading t b : shown t (loading_events t) b = badge_Loading.
Proof. simpl. now rewrite tab_eqb_refl. Qed.

Lemma shown_error t b : shown t (error_events t) b = badge_Error.
Proof. simpl. now rewrite tab_eqb_refl. Qed.

Lemma shown_badge_events t risk b :
  shown t (badge_events risk t) b =
  match badgeConfig risk with
  | Some c => c
  | None => mkBadge (Some "?") (Some BADGE_COLORS.error)
  end.
Proof.
  unfold badge_events. simpl. rewrite tab_eqb_refl. simpl.
  now destruct (badgeConfig risk) as [[? ?]|].
Qed.

Lemma remote_calls_app evs evs' :
  remote_calls (evs ++ evs') = (remote_calls evs + remote_calls evs')%nat.
Proof. unfold remote_calls. now rewrite filter_app, length_app. Qed.

Lemma alerts_app evs evs' :
  alerts (evs ++ evs') = (alerts evs + alerts evs')%nat.
Proof. unfold alerts. now rewrite filter_app, length_app. Qed.

Lemma notification_no_io env v :
  forallb (fun ev => negb (is_io ev)) (notification_events env v) = true.
Proof.
  unfold notification_events.
  destruct (strict_neq_false _); [destruct (hostname env)|]; reflexivity.
Qed.

Lemma notification_no_fetch env v :
  remote_calls (notification_events env v) = 0%nat.
Proof.
  unfold notification_events.
  destruct (strict_neq_false _); [destruct (hostname env)|]; reflexivity.
Qed.

(** An I/O event of a trace that ends in events without I/O lies in the
    part before them. *)
Lemma io_in_front (io tail pre post : list Event) ev :
  io ++ tail = pre ++ ev :: post ->
  forallb (fun ev => negb (is_io ev)) tail = true ->
  is_io ev = true ->
  exists suffix, io = pre ++ ev :: suffix.
Proof.
  revert pre. induction io as [|a io IH]; intros pre Heq Htail Hev.
  - simpl in Heq. subst tail. rewrite forallb_app in Htail.
    apply andb_true_iff in Htail as [_ Htail]. simpl in Htail.
    rewrite Hev in Htail. discriminate.
  - destruct pre as [|p pre]; simpl in Heq; injection Heq as <- Heq.
    + now exists io.
    + destruct (IH pre Heq Htail Hev) as [suffix ->]. now exists suffix.
Qed.

(** What a scan adds to the trace after the Loading badge: first the I/O,
    without any write to the badge, then events without I/O. *)
Lemma scanUrl_shape env url tabId w :
  exists io tail,
    trace (world_of (scanUrl env url tabId w)) =
      trace w ++ loading_events tabId ++ io ++ tail /\
    forallb (fun ev => negb (is_badge ev)) io = true /\
    forallb (fun ev => negb (is_io ev)) tail = true.
Proof.
  destruct url as [url|].
  2:{ rewrite scanUrl_not_a_string. exists [], []. simpl. auto. }
  destruct (fresh env (JsMap.get (toLowerCase url) (urlCache w)))
    as [entry|] eqn:Hf.
  - destruct (result entry) eqn:Hres.
    1:{ exists [EvCacheGet (toLowerCase url)], [].
        run_js. rewrite Hf, Hres. cbn. tidy_trace. auto. }
    all: rewrite (scanUrl_hit env url tabId w entry Hf)
      by (rewrite Hres; discriminate);
      exists [EvCacheGet (toLowerCase url)],
        (badge_events (risk_of (result entry)) tabId);
      cbn; auto.
  - destruct (remote_fails (remote env)) eqn:Hr.
    + rewrite scanUrl_miss_failed by assumption.
      exists [EvCacheGet (toLowerCase url); EvFetch url],
        (error_events tabId). cbn. auto.
    + rewrite scanUrl_miss_stored by assumption.
      exists [EvCacheGet (toLowerCase url); EvFetch url;
              EvCacheSet (toLowerCase url)],
        (badge_events (risk_of (body_of (remote env))) tabId ++
         (if strict_eq_str (risk_of (body_of (remote env))) "malicious"
          then notification_events env (body_of (remote env)) else [])).
      cbn. repeat split; auto.
      destruct (strict_eq_str _ _); [apply notification_no_io|reflexivity].
Qed.

End TraceFacts.

(** C9. Every call of [scanUrl] first sets the badge of the tab to Loading,
    before the cache is consulted and before any remote request; and at every
    later access to the cache and at every remote call of that scan the
    badge of the tab still shows Loading, whatever it showed before. *)
Theorem loading_badge_before_io :
  forall env url tabId w,
  exists rest,
    trace (world_of (scanUrl env url tabId w)) =
      trace w ++ loading_events tabId ++ rest /\
    forall pre ev post b,
      rest = pre ++ ev :: post -> is_io ev = true ->
      shown tabId (trace w ++ loading_events tabId ++ pre) b = badge_Loading.
Proof.
  intros env url tabId w.
  destruct (scanUrl_shape env url tabId w) as (io & tail & Htr & Hio & Htail).
  exists (io ++ tail). split; [exact Htr|].
  intros pre ev post b Heq Hev.
  destruct (io_in_front io tail pre post ev Heq Htail Hev) as [suffix ->].
  rewrite forallb_app in Hio. apply andb_true_iff in Hio as [Hpre _].
  rewrite !shown_app, shown_loading. now apply shown_no_badge.
Qed.

Section CountingFacts.

Lemma get_delete_same k (c : Cache) : JsMap.get k (JsMap.delete k c) = None.
Proof.
  apply get_None. unfold JsMap.keys, JsMap.delete. intros Hin.
  apply in_map_iff in Hin as (kv & <- & Hin).
  apply filter_In in Hin as [_ Hk].
  now rewrite String.eqb_refl in Hk.
Qed.

Lemma stale_is_miss env url w entry :
  JsMap.get (toLowerCase url) (urlCache w) = Some entry ->
  (now_check env - timestamp entry >= CACHE_TTL)%Z ->
  cache_miss env url w.
Proof.
  intros Hget Hage. unfold cache_miss, fresh. rewrite Hget.
  destruct (Z.ltb_spec (now_check env - timestamp entry) CACHE_TTL);
    [lia|reflexivity].
Qed.

Lemma remote_calls_badge risk t : remote_calls (badge_events risk t) = 0%nat.
Proof. reflexivity. Qed.

Lemma alerts_badge risk t : alerts (badge_events risk t) = 0%nat.
Proof. reflexivity. Qed.

Lemma alerts_notification env v :
  alerts (notification_events env v) =
  if strict_neq_false (showNotifications env)
  then match hostname env with Some _ => 1%nat | None => 0%nat end
  else 0%nat.
Proof.
  unfold notification_events.
  destruct (strict_neq_false _); [destruct (hostname env)|]; reflexivity.
Qed.

Lemma strict_neq_false_spec v :
  strict_neq_false v = true <-> v <> Some (JBool false).
Proof.
  destruct v as [[| [|] | | | |]|]; simpl; split; congruence.
Qed.

(** A scan that went to the remote service: its value and what it adds to
    the trace depend on the answers of the platform alone. *)
Lemma scanUrl_miss env url tabId w :
  cache_miss env url w ->
  exists v evs,
    (forall w', cache_miss env url w' ->
       value_of (scanUrl env (Some url) tabId w') = v /\
       trace (world_of (scanUrl env (Some url) tabId w')) =
         trace w' ++ evs) /\
    remote_calls evs = 1%nat /\ In (EvFetch url) evs.
Proof.
  intros _. destruct (remote_fails (remote env)) eqn:Hr.
  - eexists _, _. split; [|split].
    + intros w' Hm. rewrite scanUrl_miss_failed by assumption.
      cbn [value_of world_of fst snd trace]. split; reflexivity.
    + reflexivity.
    + cbn. auto.
  - eexists _, _. split; [|split].
    + intros w' Hm. rewrite scanUrl_miss_stored by assumption.
      cbn [value_of world_of fst snd trace]. split; reflexivity.
    + cbn [loading_events app]. unfold remote_calls at 1. cbn [filter is_fetch length].
      fold (remote_calls (badge_events (risk_of (body_of (remote env))) tabId ++
         (if strict_eq_str (risk_of (body_of (remote env))) "malicious"
          then notification_events env (body_of (remote env)) else []))).
      rewrite remote_calls_app, remote_calls_badge.
      destruct (strict_eq_str _ _);
        [now rewrite notification_no_fetch|reflexivity].
    + cbn. auto.
Qed.

End CountingFacts.

(** C3. An entry whose age at the freshness test exceeds the TTL of five
    minutes counts for nothing although it is still in the map: the scan
    returns and does to the browser exactly what it would with the entry
    deleted, and that includes one remote call for the URL. *)
Theorem stale_entry_is_refetched :
  forall env url tabId w entry,
    JsMap.get (toLowerCase url) (urlCache w) = Some entry ->
    (now_check env - timestamp entry > CACHE_TTL)%Z ->
    let purged :=
      mkWorld (JsMap.delete (toLowerCase url) (urlCache w)) (trace w) in
    let stale := scanUrl env (Some url) tabId w in
    CACHE_TTL = (5 * 60 * 1000)%Z /\
    cache_miss env url w /\
    value_of stale = value_of (scanUrl env (Some url) tabId purged) /\
    trace (world_of stale) =
      trace (world_of (scanUrl env (Some url) tabId purged)) /\
    In (EvFetch url) (trace (world_of stale)) /\
    remote_calls (trace (world_of stale)) = S (remote_calls (trace w)).
Proof.
  intros env url tabId w entry Hget Hage purged stale.
  assert (Hm : cache_miss env url w) by (eapply stale_is_miss; eauto; lia).
  assert (Hm' : cache_miss env url purged).
  { unfold cache_miss, purged. cbn [urlCache]. now rewrite get_delete_same. }
  destruct (scanUrl_miss env url tabId w Hm) as (v & evs & Hrun & Hcalls & Hin).
  destruct (Hrun w Hm) as [Hv Ht]. destruct (Hrun purged Hm') as [Hv' Ht'].
  subst stale. repeat split; try assumption.
  - congruence.
  - rewrite Ht, Ht'. reflexivity.
  - rewrite Ht. apply in_or_app. now right.
  - rewrite Ht, remote_calls_app, Hcalls. lia.
Qed.

(** Six minutes after the first scan of the example its entry is still in
    the map, and the scan goes to the remote service. *)
Lemma stale_entry_is_refetched_witness :
  JsMap.get (toLowerCase "http://example.com/a")
    (urlCache Examples.after_first_scan) =
    Some (mkEntry Examples.malicious_verdict 1000) /\
  (now_check Examples.six_minutes_later - 1000 > CACHE_TTL)%Z /\
  value_of (scanUrl Examples.six_minutes_later (Some "http://example.com/a")
              Examples.tab1 Examples.after_first_scan) =
    Returned Examples.safe_verdict /\
  remote_calls
    (trace (world_of
       (scanUrl Examples.six_minutes_later (Some "http://example.com/a")
          Examples.tab1 Examples.after_first_scan))) = 1%nat.
Proof.
  assert (Hget : JsMap.get (toLowerCase "http://example.com/a")
            (urlCache Examples.after_first_scan) =
          Some (mkEntry Examples.malicious_verdict 1000)) by reflexivity.
  assert (Hage : (now_check Examples.six_minutes_later -
                  timestamp (mkEntry Examples.malicious_verdict 1000) >
                  CACHE_TTL)%Z) by reflexivity.
  pose proof (stale_entry_is_refetched Examples.six_minutes_later
                "http://example.com/a" Examples.tab1
                Examples.after_first_scan _ Hget Hage) as H.
  cbv zeta in H. destruct H as (_ & _ & _ & _ & _ & Hcalls).
  split; [exact Hget|]. split; [exact Hage|]. split; [reflexivity|].
  exact Hcalls.
Defined.




(** C8. The answer to a [scanUrl] message when the remote service cannot be
    reached is [null]; the [checkUrl] message next to it answers the same
    failure with an [{ error }] payload. *)
Theorem scanUrl_message_answers_null :
  onMessage Examples.offline
    (ReqScanUrl (Some "http://example.com/a") Examples.tab1 None) w0 =
  (RespValue JNull,
   mkWorld JsMap.empty
     (loading_events Examples.tab1 ++
      [EvCacheGet "http://example.com/a"; EvFetch "http://example.com/a"] ++
      error_events Examples.tab1)) /\
  onMessage Examples.offline (ReqCheckUrl "http://example.com/a") w0 =
  (RespError FetchRejected,
   mkWorld JsMap.empty [EvFetch "http://example.com/a"]).
Proof. split; reflexivity. Qed.

(** A [scanUrl] message is answered with an [{ error }] payload only when
    [scanUrl] itself throws; a failure of the remote call does not make it
    throw. *)
Lemma scanUrl_message_on_failure env url tabId sender w :
  cache_miss env url w -> remote_fails (remote env) = true ->
  fst (onMessage env (ReqScanUrl (Some url) tabId sender) w) = RespValue JNull.
Proof.
  intros Hm Hfail. unfold onMessage.
  now rewrite scanUrl_miss_failed by assumption.
Qed.

(* ===================================================================== *)
(** * The eligibility gate *)
(* ===================================================================== *)

(** C5, as stated, fails: [scanUrl] has no gate of its own, so a [scanUrl]
    message scans an ftp URL; and the gate of the tab listeners asks for the
    prefix [http], which [httpx://...] passes. *)
Lemma scan_without_gate_counterexample :
  let url := "ftp://example.org/file" in
  let r := onMessage Examples.first_scan
             (ReqScanUrl (Some url) Examples.tab1 None) w0 in
  let url' := "httpx://example.org/" in
  let r' := onActivated Examples.first_scan
              (Some (mkTab (Some url') Examples.tab1)) w0 in
  (startsWith url "http://" = false /\ startsWith url "https://" = false /\
   In (EvFetch url) (trace (snd r)) /\
   In (EvCacheGet url) (trace (snd r)) /\
   badge_text (shown Examples.tab1 (trace (snd r)) badge_Loading) =
     Some "✗") /\
  (startsWith url' "http://" = false /\ startsWith url' "https://" = false /\
   In (EvFetch url') (trace (world_of r')) /\
   badge_text (shown Examples.tab1 (trace (world_of r')) badge_Loading) =
     Some "✗").
Proof. cbv zeta. repeat split; cbn; auto 10. Qed.

(** C5, as the code has it. When the URL of the activated tab is missing or
    does not begin with [http], the tab listener does not scan: it adds a
    single call to the trace, the one that empties the badge of the tab, and
    leaves the cache alone. *)
Theorem ineligible_tab_is_cleared :
  forall env tab w,
    (forall url, tab_url tab = Some url -> startsWith url "http" = false) ->
    let r := onActivated env (Some tab) w in
    value_of r = Returned tt /\
    urlCache (world_of r) = urlCache w /\
    trace (world_of r) = trace w ++ [EvBadgeText (tab_id tab) (Some "")] /\
    remote_calls (trace (world_of r)) = remote_calls (trace w) /\
    (forall b, is_Cleared (shown (tab_id tab) (trace (world_of r)) b)).
Proof.
  intros env tab w Hurl r.
  assert (Hs : scannable (tab_url tab) = false).
  { unfold scannable. destruct (tab_url tab) as [u|]; [|reflexivity].
    rewrite (Hurl u eq_refl). apply andb_false_r. }
  subst r. unfold onActivated, try_catch. rewrite Hs. run_js.
  repeat split.
  - rewrite remote_calls_app. cbn. lia.
  - intros b. unfold is_Cleared. rewrite shown_app. simpl.
    now rewrite tab_eqb_refl.
Qed.

(** Activating a tab that shows an internal page of the browser. *)
Lemma ineligible_tab_is_cleared_witness :
  (forall url, tab_url Examples.internal_page = Some url ->
               startsWith url "http" = false) /\
  trace (world_of (onActivated Examples.first_scan
                     (Some Examples.internal_page) w0)) =
    [EvBadgeText Examples.tab1 (Some "")].
Proof.
  assert (H : forall url, tab_url Examples.internal_page = Some url ->
                          startsWith url "http" = false).
  { intros url [= <-]. reflexivity. }
  split; [exact H|].
  exact (proj1 (proj2 (proj2
    (ineligible_tab_is_cleared Examples.first_scan Examples.internal_page
       w0 H)))).
Defined.

(* ===================================================================== *)
(** * Alerts *)
(* ===================================================================== *)




(* ===================================================================== *)
(** * Cache hits *)
(* ===================================================================== *)

Section FreshFacts.




Lemma fresh_Some env cached entry :
  fresh env cached = Some entry ->
  cached = Some entry /\ (now_check env - timestamp entry < CACHE_TTL)%Z.
Proof.
  unfold fresh. destruct cached as [e|]; [|discriminate].
  destruct (Z.ltb_spec (now_check env - timestamp e) CACHE_TTL);
    [|discriminate].
  intros [= <-]. auto.
Qed.

End FreshFacts.


(* ===================================================================== *)
(** * The bulk scan *)
(* ===================================================================== *)

Section BulkFacts.

Variable env : PopupEnv.

Lemma seen_In x (seen : list string) :
  existsb (String.eqb x) seen = true <-> In x seen.
Proof.
  rewrite existsb_exists. split.
  - intros (y & Hy & Heq). apply String.eqb_eq in Heq. now subst.
  - intros H. exists x. split; [exact H|apply String.eqb_refl].
Qed.

Lemma dedup_from_In seen l x :
  In x (dedup_from seen l) <-> In x l /\ ~ In x seen.
Proof.
  revert seen. induction l as [|y l IH]; intros seen; simpl; [tauto|].
  destruct (existsb (String.eqb y) seen) eqn:E.
  - apply seen_In in E. rewrite IH. split.
    + tauto.
    + intros [[<-|H] Hn]; tauto.
  - assert (Hy : ~ In y seen).
    { intros H. apply seen_In in H. congruence. }
    simpl. rewrite IH. simpl. split.
    + intros [<-|[H Hn]]; tauto.
    + intros [[<-|H] Hn]; [tauto|].
      destruct (string_dec y x); [tauto|]. right. tauto.
Qed.

Lemma dedup_from_NoDup seen l : NoDup (dedup_from seen l).
Proof.
  revert seen. induction l as [|y l IH]; intros seen; simpl; [constructor|].
  destruct (existsb (String.eqb y) seen); [apply IH|].
  constructor; [|apply IH].
  rewrite dedup_from_In. simpl. tauto.
Qed.

Lemma dedup_from_id seen l :
  NoDup l -> (forall x, In x l -> ~ In x seen) -> dedup_from seen l = l.
Proof.
  revert seen. induction l as [|y l IH]; intros seen Hn Hs; simpl;
    [reflexivity|].
  apply NoDup_cons_iff in Hn as [Hy Hn].
  destruct (existsb (String.eqb y) seen) eqn:E.
  - apply seen_In in E. exfalso. apply (Hs y); simpl; auto.
  - f_equal. apply IH; [exact Hn|].
    intros x Hx [<-|H]; [contradiction|]. apply (Hs x); simpl; auto.
Qed.

Lemma dedup_NoDup l : NoDup (dedup l).
Proof. apply dedup_from_NoDup. Qed.

Lemma dedup_In l x : In x (dedup l) <-> In x l.
Proof. unfold dedup. rewrite dedup_from_In. simpl. tauto. Qed.

Lemma dedup_id l : NoDup l -> dedup l = l.
Proof. intros H. apply dedup_from_id; auto. Qed.

(** *** One turn of the loop *)

Lemma fetched_app evs evs' : fetched (evs ++ evs') = fetched evs ++ fetched evs'.
Proof. apply flat_map_app. Qed.

Lemma count_risk_cases risk s :
  (risk = Some (JStr "safe") /\
   count_risk risk s =
     mkStats (total s) (S (safe s)) (suspicious s) (malicious s)) \/
  (risk = Some (JStr "suspicious") /\
   count_risk risk s =
     mkStats (total s) (safe s) (S (suspicious s)) (malicious s)) \/
  (risk = Some (JStr "malicious") /\
   count_risk risk s =
     mkStats (total s) (safe s) (suspicious s) (S (malicious s))) \/
  (strict_eq_str risk "safe" = false /\
   strict_eq_str risk "suspicious" = false /\
   strict_eq_str risk "malicious" = false /\
   count_risk risk s = s).
Proof.
  unfold count_risk.
  destruct (strict_eq_str risk "safe") eqn:E1;
    [|destruct (strict_eq_str risk "suspicious") eqn:E2;
      [|destruct (strict_eq_str risk "malicious") eqn:E3]].
  4: now repeat right.
  all: destruct risk as [[| | |s0| |]|]; try discriminate; cbn in *.
  - apply String.eqb_eq in E1. subst. now left.
  - apply String.eqb_eq in E2. subst. right. now left.
  - apply String.eqb_eq in E3. subst. right. right. now left.
Qed.

Lemma scan_link_spec st link :
  let st' := scan_link env st link in
  total (bulk_stats st') = total (bulk_stats st) /\
  safe (bulk_stats st') = safe (bulk_stats st) + bump env "safe" link /\
  suspicious (bulk_stats st') =
    suspicious (bulk_stats st) + bump env "suspicious" link /\
  malicious (bulk_stats st') =
    malicious (bulk_stats st) + bump env "malicious" link /\
  counted (bulk_stats st') <= S (counted (bulk_stats st)) /\
  fetched (bulk_events st') = fetched (bulk_events st) ++ [link] /\
  (forall s, In (PShowStats s) (bulk_events st') ->
     In (PShowStats s) (bulk_events st) \/ s = bulk_stats st').
Proof.
  unfold scan_link, bump, counts_as, counted.
  destruct (check env link) as [|status|status data]; cbn.
  1,2: rewrite fetched_app; cbn; repeat split; try lia;
    intros s Hs; apply in_app_or in Hs as [Hs|[Hs|[]]];
    [now left|discriminate].
  destruct (get_prop data "risk") as [e|risk]; cbn.
  - rewrite fetched_app. cbn. repeat split; try lia.
    intros s Hs. apply in_app_or in Hs as [Hs|[Hs|[]]];
      [now left|discriminate].
  - rewrite !fetched_app. cbn. rewrite app_nil_r.
    destruct (count_risk_cases risk (bulk_stats st))
      as [[-> ->]|[[-> ->]|[[-> ->]|(E1 & E2 & E3 & ->)]]];
      cbn; try rewrite E1, E2, E3; repeat split; try lia;
      intros s Hs; apply in_app_or in Hs as [Hs|[Hs|[]]];
      try (apply in_app_or in Hs as [Hs|[Hs|[]]]; try discriminate);
      try (now left); try (right; congruence).
Qed.

End BulkFacts.

Section BulkLoop.

Variable env : PopupEnv.

Lemma tier_count_cons tier link l :
  tier_count tier env (link :: l) = bump env tier link + tier_count tier env l.
Proof.
  unfold tier_count, bump. cbn.
  now destruct (counts_as tier (check env link)).
Qed.

(** The loop over a list of links, from any state. *)
Lemma scan_loop_spec l : forall st,
  let st' := fold_left (scan_link env) l st in
  total (bulk_stats st') = total (bulk_stats st) /\
  safe (bulk_stats st') = safe (bulk_stats st) + tier_count "safe" env l /\
  suspicious (bulk_stats st') =
    suspicious (bulk_stats st) + tier_count "suspicious" env l /\
  malicious (bulk_stats st') =
    malicious (bulk_stats st) + tier_count "malicious" env l /\
  counted (bulk_stats st') <= counted (bulk_stats st) + length l /\
  fetched (bulk_events st') = fetched (bulk_events st) ++ l /\
  (forall s, In (PShowStats s) (bulk_events st') ->
     In (PShowStats s) (bulk_events st) \/
     total s = total (bulk_stats st)).
Proof.
  induction l as [|link l IH]; intros st; cbn [fold_left].
  - cbn. rewrite app_nil_r. repeat split; try lia. now left.
  - destruct (scan_link_spec env st link) as (Ht & Hs & Hu & Hm & Hc & Hf & Hsh).
    destruct (IH (scan_link env st link)) as (Ht' & Hs' & Hu' & Hm' & Hc' & Hf' & Hsh').
    cbv zeta in *. rewrite !tier_count_cons.
    repeat split; try (cbn [length]; lia).
    + rewrite Hf', Hf, <- app_assoc. reflexivity.
    + intros s Hin. destruct (Hsh' s Hin) as [Hin'|Htot].
      * destruct (Hsh s Hin') as [Hold | ->]; [now left|now right].
      * right. congruence.
Qed.

Lemma scan_link_results st link :
  bulk_results (scan_link env st link) =
  bulk_results st ++
  match check env link with
  | Json _ data => [mkLinkResult link data]
  | _ => []
  end.
Proof.
  unfold scan_link.
  destruct (check env link) as [|status|status data]; cbn;
    try now rewrite app_nil_r.
  now destruct (get_prop data "risk").
Qed.

Lemma scan_loop_keeps l : forall st x,
  In x (bulk_results st) ->
  In x (bulk_results (fold_left (scan_link env) l st)).
Proof.
  induction l as [|link l IH]; intros st x Hx; cbn [fold_left]; [exact Hx|].
  apply IH. rewrite scan_link_results. apply in_or_app. now left.
Qed.

Lemma scan_loop_results l : forall st link status data,
  In link l -> check env link = Json status data ->
  In (mkLinkResult link data)
     (bulk_results (fold_left (scan_link env) l st)).
Proof.
  induction l as [|y l IH]; intros st link status data Hin Hc; [easy|].
  cbn [fold_left]. destruct Hin as [-> | Hin].
  - apply scan_loop_keeps. rewrite scan_link_results, Hc.
    apply in_or_app. right. now left.
  - now apply IH with status.
Qed.

Lemma fetched_scanPageLinks raw :
  getLinks env = Some raw ->
  fetched (scanPageLinks env) = fetched (bulk_events (scan_links env raw)).
Proof.
  intros H. unfold scanPageLinks. rewrite H. cbv zeta.
  destruct (storage_get env) as [stored|];
    [destruct (storage_set_ok env)|];
    rewrite fetched_app; cbn; now rewrite app_nil_r.
Qed.

Lemma shown_scanPageLinks raw s :
  getLinks env = Some raw ->
  In (PShowStats s) (scanPageLinks env) ->
  In (PShowStats s) (bulk_events (scan_links env raw)).
Proof.
  intros H. unfold scanPageLinks. rewrite H. cbv zeta.
  destruct (storage_get env) as [stored|];
    [destruct (storage_set_ok env)|];
    intros Hin; apply in_app_or in Hin as [Hin|Hin]; auto;
    cbn in Hin; intuition discriminate.
Qed.

Lemma stored_scanPageLinks raw m :
  getLinks env = Some raw ->
  In (PStorageSet m) (scanPageLinks env) ->
  (forall s, ~ In (PStorageSet s) (bulk_events (scan_links env raw))) ->
  JsMap.get (currentUrl env) m = Some (bulk_stats (scan_links env raw)).
Proof.
  intros H. unfold scanPageLinks. rewrite H. cbv zeta.
  destruct (storage_get env) as [stored|];
    [destruct (storage_set_ok env)|];
    intros Hin Hno; apply in_app_or in Hin as [Hin|Hin];
    try (now apply Hno in Hin); cbn in Hin;
    repeat (destruct Hin as [Hin|Hin]; try discriminate; try easy);
    injection Hin as <-; apply get_set_same.
Qed.

Lemma scan_link_no_storage st link s :
  In (PStorageSet s) (bulk_events (scan_link env st link)) ->
  In (PStorageSet s) (bulk_events st).
Proof.
  unfold scan_link.
  destruct (check env link) as [|status|status data]; cbn.
  1,2: intros Hin; apply in_app_or in Hin as [Hin|[Hin|[]]];
    [exact Hin|discriminate].
  destruct (get_prop data "risk"); cbn; intros Hin.
  - apply in_app_or in Hin as [Hin|[Hin|[]]]; [exact Hin|discriminate].
  - apply in_app_or in Hin as [Hin|[Hin|[]]]; [|discriminate].
    apply in_app_or in Hin as [Hin|[Hin|[]]]; [exact Hin|discriminate].
Qed.

Lemma scan_loop_no_storage l : forall st s,
  In (PStorageSet s) (bulk_events (fold_left (scan_link env) l st)) ->
  In (PStorageSet s) (bulk_events st).
Proof.
  induction l as [|link l IH]; intros st s; cbn [fold_left]; [easy|].
  intros Hin. apply IH in Hin. now apply scan_link_no_storage in Hin.
Qed.

End BulkLoop.

(** C6. The bulk scan keeps the first occurrence of every link, calls the
    remote service once for each of the first 50 links that remain, and for
    no other; the total of its stats, as shown and as stored under the URL
    of the page, is the number of links after deduplication; and only the
    scanned links are counted in the three tiers.  For 120 different links
    that makes 50 remote calls and a total of 120. *)
Theorem bulk_scan_cap :
  forall env raw,
    getLinks env = Some raw ->
    let links := dedup raw in
    let scanned := firstn 50 links in
    let stats := bulk_stats (scan_links env raw) in
    (NoDup links /\ forall u, In u links <-> In u raw) /\
    fetched (scanPageLinks env) = scanned /\
    length (fetched (scanPageLinks env)) = Nat.min (length links) 50 /\
    total stats = length links /\
    (safe stats = tier_count "safe" env scanned /\
     suspicious stats = tier_count "suspicious" env scanned /\
     malicious stats = tier_count "malicious" env scanned /\
     counted stats <= Nat.min (length links) 50) /\
    (forall s, In (PShowStats s) (scanPageLinks env) ->
               total s = length links) /\
    (forall m, In (PStorageSet m) (scanPageLinks env) ->
               JsMap.get (currentUrl env) m = Some stats) /\
    (storage_get env <> None ->
     exists m, In (PStorageSet m) (scanPageLinks env)) /\
    (NoDup raw -> length raw = 120 ->
     length (fetched (scanPageLinks env)) = 50 /\ total stats = 120).
Proof.
  intros env raw Hraw links scanned stats. subst stats.
  pose proof (scan_loop_spec env scanned
    (mkBulk (mkStats (length links) 0 0 0) [] [PLinksCount (length links)]))
    as H.
  assert (Hst : fold_left (scan_link env) scanned
                  (mkBulk (mkStats (length links) 0 0 0) []
                     [PLinksCount (length links)]) = scan_links env raw)
    by reflexivity.
  cbv zeta in H. rewrite Hst in H. clear Hst.
  cbn [bulk_stats bulk_events total safe suspicious malicious counted
       fetched flat_map app] in H.
  destruct H as (Ht & Hs & Hu & Hm & Hc & Hf & Hsh).
  unfold counted in *. cbn [safe suspicious malicious] in Hc.
  assert (Hlen : length scanned = Nat.min (length links) 50).
  { unfold scanned. rewrite length_firstn. lia. }
  assert (Hfetched : fetched (scanPageLinks env) = scanned).
  { rewrite (fetched_scanPageLinks env raw Hraw). exact Hf. }
  split; [split; [apply dedup_NoDup|intros u; apply dedup_In]|].
  split; [exact Hfetched|]. split; [now rewrite Hfetched|].
  split; [exact Ht|]. split; [repeat split; lia|].
  split; [|split; [|split]].
  - intros s Hin. apply (shown_scanPageLinks env raw s Hraw) in Hin.
    destruct (Hsh s Hin) as [[Hin'|[]]|Htot]; [discriminate|exact Htot].
  - intros m Hin. apply (stored_scanPageLinks env raw m Hraw Hin).
    intros s Hs'. unfold scan_links in Hs'.
    apply scan_loop_no_storage in Hs'. cbn in Hs'.
    destruct Hs' as [Hs'|[]]. discriminate.
  - intros Hget. unfold scanPageLinks. rewrite Hraw. cbv zeta.
    destruct (storage_get env) as [stored|]; [|congruence].
    eexists. destruct (storage_set_ok env); apply in_or_app; right;
      cbn; eauto.
  - intros Hnd H120. rewrite Hfetched, Hlen, Ht.
    unfold links. rewrite (dedup_id raw Hnd), H120. split; reflexivity.
Qed.

(** The 120 links of the example are all different. *)
Lemma many_links_NoDup : NoDup Examples.many_links.
Proof.
  assert (H : dedup Examples.many_links = Examples.many_links)
    by (vm_compute; reflexivity).
  rewrite <- H. apply dedup_NoDup.
Qed.

(** 120 different links: 50 remote calls, a total of 120. *)
Lemma bulk_scan_cap_witness :
  getLinks Examples.page_with_many_links = Some Examples.many_links /\
  length Examples.many_links = 120 /\
  length (fetched (scanPageLinks Examples.page_with_many_links)) = 50 /\
  total (bulk_stats (scan_links Examples.page_with_many_links
                       Examples.many_links)) = 120.
Proof.
  assert (Hraw : getLinks Examples.page_with_many_links =
                 Some Examples.many_links) by reflexivity.
  assert (Hlen : length Examples.many_links = 120) by reflexivity.
  pose proof (bulk_scan_cap Examples.page_with_many_links
                Examples.many_links Hraw) as H.
  cbv zeta in H. destruct H as (_ & _ & _ & _ & _ & _ & _ & _ & H120).
  split; [exact Hraw|]. split; [exact Hlen|].
  exact (H120 many_links_NoDup Hlen).
Defined.

(** C10, as stated, fails: an answer that carries an [error] and a risk
    tier is counted in that tier. *)
Lemma error_answer_counted_counterexample :
  let env := Examples.page_with_error in
  let st := scan_links env ["http://example.com/a"] in
  check env "http://example.com/a" = Json 200 Examples.error_with_risk /\
  get_prop Examples.error_with_risk "error" =
    inr (Some (JStr "lookup degraded")) /\
  safe (bulk_stats st) = 1 /\
  bulk_results st =
    [mkLinkResult "http://example.com/a" Examples.error_with_risk].
Proof. cbv zeta. repeat split. Qed.

(** C10, as the code has it. In the bulk scan an answer that parses and
    carries an [error] is no failure, for the [error] is never read: the
    answer is appended to the results, which go to the content script once
    the stats are stored, and it is counted like any other answer, in the
    tier its risk names and in none when its risk names no tier. *)
Theorem error_answer_in_bulk_scan :
  forall env raw link status data err,
    getLinks env = Some raw ->
    In link (firstn 50 (dedup raw)) ->
    check env link = Json status data ->
    get_prop data "error" = inr (Some err) ->
    (forall st,
       bulk_results (scan_link env st link) =
         bulk_results st ++ [mkLinkResult link data] /\
       bulk_stats (scan_link env st link) =
         count_risk (risk_of data) (bulk_stats st) /\
       (in_a_tier data = false ->
        bulk_stats (scan_link env st link) = bulk_stats st)) /\
    In (mkLinkResult link data) (bulk_results (scan_links env raw)) /\
    (storage_get env <> None -> storage_set_ok env = true ->
     In (PHighlight (bulk_results (scan_links env raw))) (scanPageLinks env)).
Proof.
  intros env raw link status data err Hraw Hin Hc Herr.
  assert (Hrisk : get_prop data "risk" = inr (risk_of data)).
  { unfold risk_of. destruct data; try discriminate. reflexivity. }
  split; [|split].
  - intros st.
    assert (Hstats : bulk_stats (scan_link env st link) =
                     count_risk (risk_of data) (bulk_stats st)).
    { unfold scan_link. rewrite Hc, Hrisk. reflexivity. }
    split; [|split].
    + rewrite scan_link_results, Hc. reflexivity.
    + exact Hstats.
    + intros Hnone. rewrite Hstats. unfold in_a_tier in Hnone.
      apply orb_false_iff in Hnone as [Hnone E3].
      apply orb_false_iff in Hnone as [E1 E2].
      unfold count_risk. now rewrite E1, E2, E3.
  - unfold scan_links. now apply scan_loop_results with status.
  - intros Hget Hset. unfold scanPageLinks. rewrite Hraw. cbv zeta.
    destruct (storage_get env) as [stored|]; [|congruence].
    rewrite Hset. apply in_or_app. right. cbn. auto.
Qed.

(** An answer that is nothing but an error: appended, and counted in no
    tier. *)
Lemma error_answer_in_bulk_scan_witness :
  getLinks Examples.page_with_bare_error = Some ["http://example.com/a"] /\
  In "http://example.com/a" (firstn 50 (dedup ["http://example.com/a"])) /\
  check Examples.page_with_bare_error "http://example.com/a" =
    Json 400 Examples.error_only /\
  get_prop Examples.error_only "error" = inr (Some (JStr "bad request")) /\
  In (mkLinkResult "http://example.com/a" Examples.error_only)
     (bulk_results (scan_links Examples.page_with_bare_error
                      ["http://example.com/a"])) /\
  counted (bulk_stats (scan_links Examples.page_with_bare_error
                         ["http://example.com/a"])) = 0.
Proof.
  assert (Hraw : getLinks Examples.page_with_bare_error =
                 Some ["http://example.com/a"]) by reflexivity.
  assert (Hin : In "http://example.com/a"
                  (firstn 50 (dedup ["http://example.com/a"])))
    by (cbn; auto).
  assert (Hc : check Examples.page_with_bare_error "http://example.com/a" =
               Json 400 Examples.error_only) by reflexivity.
  assert (Herr : get_prop Examples.error_only "error" =
                 inr (Some (JStr "bad request"))) by reflexivity.
  pose proof (error_answer_in_bulk_scan Examples.page_with_bare_error
                _ _ _ _ _ Hraw Hin Hc Herr) as (_ & Hres & _).
  split; [exact Hraw|]. split; [exact Hin|]. split; [exact Hc|].
  split; [exact Herr|]. split; [exact Hres|reflexivity].
Defined.

(* ===================================================================== *)
(** * The invariant holds in every run, and the examples *)
(* ===================================================================== *)

Lemma reachable_stores l : forall c, reachable c -> reachable (stores l c).
Proof.
  unfold stores. induction l as [|[[[key r] t1] t2] l IH]; intros c Hc;
    cbn [fold_left]; [exact Hc|].
  apply IH. now constructor.
Qed.

Lemma cache_ok_empty : cache_ok (urlCache w0).
Proof. repeat split; [constructor|cbn; lia|intros kv []]. Qed.

(** A scan leaves the cache in order. *)
Lemma scanUrl_preserves_ok env url tabId w :
  cache_ok (urlCache w) ->
  cache_ok (urlCache (world_of (scanUrl env url tabId w))).
Proof.
  intros Hok. destruct url as [url|];
    [|now rewrite scanUrl_not_a_string].
  destruct (fresh env (JsMap.get (toLowerCase url) (urlCache w)))
    as [entry|] eqn:Hf.
  - apply fresh_Some in Hf as Hget. destruct Hget as [Hget _].
    apply get_In in Hget.
    rewrite (scanUrl_hit env url tabId w entry Hf); [exact Hok|].
    destruct Hok as (_ & _ & Hres). exact (Hres _ Hget).
  - destruct (remote_fails (remote env)) eqn:Hr.
    + now rewrite scanUrl_miss_failed.
    + rewrite scanUrl_miss_stored by assumption. cbn [world_of snd urlCache].
      apply put_ok; [|exact Hok].
      unfold remote_fails in Hr.
      destruct (remote env) as [| |st body]; try discriminate.
      destruct body; cbn in Hr |- *; discriminate.
Qed.

(** Storing one more verdict in a cache of a thousand fresh ones leaves 500. *)
Lemma cache_capacity_bound_witness :
  reachable Examples.full_cache /\
  JsMap.size Examples.full_cache = 1000 /\
  JsMap.size (put "http://example.com/new" Examples.safe_verdict 1000 1000
                Examples.full_cache) = 500.
Proof.
  assert (Hr : reachable Examples.full_cache)
    by (apply reachable_stores; constructor).
  destruct (cache_capacity_bound Examples.full_cache Hr) as [_ Hput].
  destruct (Hput "http://example.com/new" Examples.safe_verdict
              1000%Z 1000%Z) as (_ & Hhalf & _).
  cbv zeta in Hhalf.
  split; [exact Hr|]. split; [vm_compute; reflexivity|].
  apply Hhalf. apply Nat.ltb_lt. vm_compute. reflexivity.
Defined.

(** C2, as stated, fails when the insertion that goes over the maximum comes
    with expired entries: the cache of a thousand verdicts stamped 0 to 999
    is full, a store at time 300500 makes 1001 entries, the expiry sweep
    removes the 500 stamped below 500 and the size test then finds 501, so
    no capacity sweep runs and 501 entries stay, not 500.  One millisecond
    after the TTL of the oldest entry, at 300001, a full 1000 stay. *)
Lemma insertion_over_maximum_counterexample :
  reachable Examples.full_cache /\
  JsMap.size Examples.full_cache = CONFIG_CACHE_MAX_SIZE /\
  JsMap.size (JsMap.set "http://example.com/new"
                (mkEntry Examples.safe_verdict 300500) Examples.full_cache) =
    1001 /\
  JsMap.size (put "http://example.com/new" Examples.safe_verdict
                300500 300500 Examples.full_cache) = 501 /\
  JsMap.size (JsMap.set "http://example.com/new"
                (mkEntry Examples.safe_verdict 300001) Examples.full_cache) =
    1001 /\
  JsMap.size (put "http://example.com/new" Examples.safe_verdict
                300001 300001 Examples.full_cache) = 1000.
Proof.
  split; [apply reachable_stores; constructor|].
  split; [vm_compute; reflexivity|].
  split; [vm_compute; reflexivity|].
  split; [vm_compute; reflexivity|].
  split; vm_compute; reflexivity.
Qed.


(* ===================================================================== *)
(** * Further properties of the cache *)
(* ===================================================================== *)

Lemma lower_ascii_twice c : lower_ascii (lower_ascii c) = lower_ascii c.
Proof. destruct c as [[] [] [] [] [] [] [] []]; reflexivity. Qed.

Lemma toLowerCase_twice s : toLowerCase (toLowerCase s) = toLowerCase s.
Proof.
  induction s as [|c s IH]; simpl; [reflexivity|].
  now rewrite lower_ascii_twice, IH.
Qed.

Lemma null_or_not (v : JsVal) : v = JNull \/ v <> JNull.
Proof. destruct v; [now left|right; discriminate..]. Qed.

(** The five ways a call of [scanUrl] can go. *)
Lemma scanUrl_cases env url tabId w :
  (url = None /\
   scanUrl env url tabId w =
   (Threw TypeError, mkWorld (urlCache w) (trace w ++ loading_events tabId)))
  \/
  (exists u entry,
     url = Some u /\
     fresh env (JsMap.get (toLowerCase u) (urlCache w)) = Some entry /\
     result entry = JNull /\
     scanUrl env url tabId w =
     (Threw TypeError,
      mkWorld (urlCache w)
        (trace w ++ loading_events tabId ++ [EvCacheGet (toLowerCase u)])))
  \/
  (exists u entry,
     url = Some u /\
     fresh env (JsMap.get (toLowerCase u) (urlCache w)) = Some entry /\
     result entry <> JNull /\
     scanUrl env url tabId w =
     (Returned (result entry),
      mkWorld (urlCache w)
        (trace w ++ loading_events tabId ++ [EvCacheGet (toLowerCase u)] ++
         badge_events (risk_of (result entry)) tabId)))
  \/
  (exists u,
     url = Some u /\ cache_miss env u w /\
     remote_fails (remote env) = true /\
     scanUrl env url tabId w =
     (Returned JNull,
      mkWorld (urlCache w)
        (trace w ++ loading_events tabId ++
         [EvCacheGet (toLowerCase u); EvFetch u] ++ error_events tabId)))
  \/
  (exists u,
     url = Some u /\ cache_miss env u w /\
     remote_fails (remote env) = false /\
     body_of (remote env) <> JNull /\
     scanUrl env url tabId w =
     (Returned (body_of (remote env)),
      mkWorld
        (put (toLowerCase u) (body_of (remote env)) (now_store env)
           (now_clean env) (urlCache w))
        (trace w ++ loading_events tabId ++
         [EvCacheGet (toLowerCase u); EvFetch u; EvCacheSet (toLowerCase u)] ++
         badge_events (risk_of (body_of (remote env))) tabId ++
         (if strict_eq_str (risk_of (body_of (remote env))) "malicious"
          then notification_events env (body_of (remote env)) else [])))).
Proof.
  destruct url as [u|]; [|left; split; [reflexivity|apply scanUrl_not_a_string]].
  right.
  destruct (fresh env (JsMap.get (toLowerCase u) (urlCache w)))
    as [entry|] eqn:Hf.
  - destruct (null_or_not (result entry)) as [Hres|Hres].
    + left. exists u, entry. repeat split; try assumption.
      run_js. rewrite Hf, Hres. cbn. tidy_trace. reflexivity.
    + right. left. exists u, entry. repeat split; try assumption.
      now apply scanUrl_hit.
  - right. right. destruct (remote_fails (remote env)) eqn:Hr.
    + left. exists u. repeat split; try assumption.
      now apply scanUrl_miss_failed.
    + right. exists u. repeat split; try assumption.
      * unfold remote_fails in Hr.
        destruct (remote env) as [| |st body]; try discriminate.
        destruct body; cbn in Hr |- *; discriminate.
      * now apply scanUrl_miss_stored.
Qed.

(** X1. After any sequence of calls of [scanUrl], started on the empty cache
    of a fresh worker, the cache has no key twice, holds at most 1000
    entries, stores no [null] verdict, and every key is in lower case. *)
Theorem scans_keep_cache_in_order :
  forall calls,
    let c := urlCache (run_scans calls w0) in
    NoDup (JsMap.keys c) /\
    (JsMap.size c <= CONFIG_CACHE_MAX_SIZE)%nat /\
    (forall k e, JsMap.get k c = Some e -> result e <> JNull) /\
    (forall k, In k (JsMap.keys c) -> toLowerCase k = k).
Proof.
  intros calls.
  assert (Hinv : forall w,
    cache_ok (urlCache w) /\
    (forall kv, In kv (urlCache w) -> toLowerCase (fst kv) = fst kv) ->
    cache_ok (urlCache (run_scans calls w)) /\
    (forall kv, In kv (urlCache (run_scans calls w)) ->
                toLowerCase (fst kv) = fst kv)).
  { unfold run_scans. induction calls as [|[[env url] tabId] calls IH];
      intros w [Hok Hlow]; cbn [fold_left]; [now split|].
    apply IH. split; [now apply scanUrl_preserves_ok|].
    destruct (scanUrl_cases env url tabId w)
      as [[_ ->]|[(u & e & _ & _ & _ & ->)|[(u & e & _ & _ & _ & ->)|
          [(u & _ & _ & _ & ->)|(u & _ & _ & _ & _ & ->)]]]];
      cbn [world_of snd urlCache]; try exact Hlow.
    intros kv Hin. apply cleanCache_In, set_In in Hin.
    destruct Hin as [-> | Hin]; [apply toLowerCase_twice|now apply Hlow]. }
  destruct (Hinv w0) as [(Hn & Hs & Hres) Hlow].
  { split; [apply cache_ok_empty|intros kv []]. }
  cbv zeta. repeat split; try assumption.
  - intros k e Hget. apply (Hres (k, e)). now apply get_In.
  - intros k Hin. unfold JsMap.keys in Hin.
    apply in_map_iff in Hin as (kv & <- & Hin). now apply Hlow.
Qed.

(** X2. Whatever the cache, [cleanCache] leaves only entries it found there
    and none that is older than the TTL at the time of the sweep; and
    sweeping again at the same time changes nothing. *)
Theorem cleanCache_leaves_no_stale_entry :
  forall now c,
    (forall kv, In kv (cleanCache now c) ->
       In kv c /\ (now - timestamp (snd kv) <= CACHE_TTL)%Z) /\
    cleanCache now (cleanCache now c) = cleanCache now c.
Proof.
  intros now c.
  assert (Hfresh : forall kv, In kv (cleanCache now c) ->
                     expired now kv = false).
  { intros kv Hin. apply limitSize_In in Hin. unfold sweepExpired in Hin.
    rewrite sweep_fold in Hin. apply filter_In in Hin as [Hin Hk].
    apply negb_true_iff in Hk. unfold expired_key in Hk.
    destruct (expired now kv) eqn:E; [|reflexivity].
    rewrite <- Hk. symmetry. apply existsb_exists. exists kv.
    now rewrite E, String.eqb_refl. }
  split.
  - intros kv Hin. split; [now apply cleanCache_In with now|].
    apply Hfresh in Hin. unfold expired in Hin.
    destruct (Z.gtb_spec (now - timestamp (snd kv)) CACHE_TTL);
      [discriminate|assumption].
  - set (c1 := cleanCache now c) in *. unfold cleanCache at 1.
    assert (Hs : sweepExpired now c1 = c1).
    { unfold sweepExpired. rewrite sweep_fold. apply filter_all.
      intros kv Hin. apply negb_true_iff. unfold expired_key.
      destruct (existsb _ c1) eqn:E; [|reflexivity].
      apply existsb_exists in E as (kv' & Hin' & H).
      apply andb_true_iff in H as [H _]. rewrite (Hfresh kv' Hin') in H.
      discriminate. }
    assert (Hsz : (1000 <? JsMap.size c1)%nat = false)
      by apply Nat.ltb_ge, cleanCache_size.
    rewrite Hs. unfold limitSize. now rewrite Hsz.
Qed.

Lemma cleanCache_keeps_fresh_filter now c :
  NoDup (JsMap.keys c) ->
  (JsMap.size (filter (alive now) c) <= 1000)%nat ->
  cleanCache now c = filter (alive now) c.
Proof.
  intros Hn Hsize. unfold cleanCache.
  rewrite sweepExpired_filter by exact Hn. fold (alive now).
  unfold limitSize. now rewrite (proj2 (Nat.ltb_ge _ _) Hsize).
Qed.

(** X3. With unique keys, when at most 1000 entries are within the TTL at the
    time of the sweep, [cleanCache] keeps exactly those, in their order: a
    verdict within its TTL is dropped only when the cache is over capacity. *)
Theorem cleanCache_keeps_fresh :
  forall now c,
    NoDup (JsMap.keys c) ->
    (JsMap.size (filter (alive now) c) <= 1000)%nat ->
    cleanCache now c = filter (alive now) c.
Proof.
  intros now c Hn Hsize. unfold cleanCache.
  rewrite sweepExpired_filter by exact Hn. fold (alive now).
  unfold limitSize. now rewrite (proj2 (Nat.ltb_ge _ _) Hsize).
Qed.

(** At time 400000 the verdict stored at 1000 goes; the other two stay. *)
Lemma cleanCache_keeps_fresh_witness :
  NoDup (JsMap.keys MoreExamples.mixed_cache) /\
  (JsMap.size (filter (alive 400000) MoreExamples.mixed_cache) <= 1000)%nat /\
  JsMap.keys (cleanCache 400000 MoreExamples.mixed_cache) =
    ["http://a.example/"; "http://c.example/"].
Proof.
  assert (Hn : NoDup (JsMap.keys MoreExamples.mixed_cache)).
  { cbn. repeat constructor; cbn; intuition discriminate. }
  assert (Hs : (JsMap.size (filter (alive 400000) MoreExamples.mixed_cache)
                <= 1000)%nat) by (cbn; lia).
  split; [exact Hn|]. split; [exact Hs|].
  rewrite (cleanCache_keeps_fresh 400000 MoreExamples.mixed_cache Hn Hs).
  reflexivity.
Defined.

(* ===================================================================== *)
(** * Further properties of a scan *)
(* ===================================================================== *)

Lemma notification_no_badge env v :
  forallb (fun ev => negb (is_badge ev)) (notification_events env v) = true.
Proof.
  unfold notification_events.
  destruct (strict_neq_false _); [destruct (hostname env)|]; reflexivity.
Qed.

Lemma verdict_badge_not_loading risk :
  match badgeConfig risk with
  | Some c => c
  | None => mkBadge (Some "?") (Some BADGE_COLORS.error)
  end <> badge_Loading.
Proof.
  unfold badgeConfig.
  destruct (match risk with Some v => property_key v | None => None end)
    as [key|]; [|discriminate].
  repeat match goal with
    | |- context [if ?c then _ else _] => destruct c
    end; discriminate.
Qed.

(** X4. A call of [scanUrl] calls the remote service at most once: exactly
    once when it finds nothing fresh in the cache, whether the call then
    succeeds or fails, and not at all when the cache answers or when the URL
    is not a string. *)
Theorem scan_calls_remote_at_most_once :
  forall env url tabId w,
    let before := remote_calls (trace w) in
    let after := remote_calls (trace (world_of (scanUrl env url tabId w))) in
    (after <= S before)%nat /\
    (forall u, url = Some u -> cache_miss env u w -> after = S before) /\
    (forall u, url = Some u -> ~ cache_miss env u w -> after = before) /\
    (url = None -> after = before).
Proof.
  intros env url tabId w before after. subst before after.
  destruct (scanUrl_cases env url tabId w)
    as [[Hu ->]|[(u & e & Hu & Hf & _ & ->)|[(u & e & Hu & Hf & _ & ->)|
        [(u & Hu & Hm & _ & ->)|(u & Hu & Hm & _ & _ & ->)]]]];
    cbn [world_of snd trace]; rewrite !remote_calls_app;
    try rewrite remote_calls_badge;
    try (destruct (strict_eq_str _ _); [rewrite notification_no_fetch|]);
    cbn; subst url;
    (split; [lia|]); (split; [|split]);
    try (intros u' [= <-] H); try (intros [=]);
    try lia; try discriminate;
    try (unfold cache_miss in *; congruence).
Qed.

(** X5. A call of [scanUrl] creates at most one alert, and it creates one
    only when it returns a verdict whose risk is the string [malicious],
    fetched from the remote service on a cache miss, while the stored setting
    is not [false] and the URL constructor accepts the URL. *)
Theorem scan_alerts_at_most_once :
  forall env url tabId w,
    let r := scanUrl env url tabId w in
    (alerts (trace (world_of r)) <= S (alerts (trace w)))%nat /\
    (alerts (trace (world_of r)) = S (alerts (trace w)) ->
     yields_malicious (value_of r) /\
     (exists u, url = Some u /\ cache_miss env u w) /\
     remote_fails (remote env) = false /\
     showNotifications env <> Some (JBool false) /\
     hostname env <> None).
Proof.
  intros env url tabId w r. subst r.
  destruct (scanUrl_cases env url tabId w)
    as [[Hu ->]|[(u & e & Hu & Hf & _ & ->)|[(u & e & Hu & Hf & _ & ->)|
        [(u & Hu & Hm & _ & ->)|(u & Hu & Hm & Hok & _ & ->)]]]];
    cbn [value_of world_of fst snd trace]; rewrite !alerts_app;
    try rewrite alerts_badge.
  1-4: cbn; split; [lia|intros H; exfalso; lia].
  change (alerts (loading_events tabId)) with 0%nat.
  change (alerts [EvCacheGet (toLowerCase u); EvFetch u;
                  EvCacheSet (toLowerCase u)]) with 0%nat.
  destruct (strict_eq_str (risk_of (body_of (remote env))) "malicious")
    eqn:Hrisk.
  2:{ change (alerts []) with 0%nat. split; [lia|intros H; exfalso; lia]. }
  rewrite alerts_notification.
  destruct (strict_neq_false (showNotifications env)) eqn:Hset;
    [destruct (hostname env) as [h|] eqn:Hh|];
    (split; [lia|]); intros H; try (exfalso; lia).
  split; [now exists (body_of (remote env))|].
  split; [now exists u|]. split; [exact Hok|].
  split; [now apply strict_neq_false_spec|discriminate].
Qed.

(** X6. When a call of [scanUrl] returns, the badge of the tab no longer
    shows Loading: it shows Error when [null] is returned and otherwise the
    badge [updateBadge] gives for the risk of the returned verdict.  When the
    call throws, the badge is left on Loading. *)
Theorem badge_after_scan :
  forall env url tabId w b,
    let r := scanUrl env url tabId w in
    let badge := shown tabId (trace (world_of r)) b in
    (forall e, value_of r = Threw e -> badge = badge_Loading) /\
    (value_of r = Returned JNull -> badge = badge_Error) /\
    (forall v, value_of r = Returned v -> v <> JNull ->
       badge = shown tabId (badge_events (risk_of v) tabId) b /\
       badge <> badge_Loading).
Proof.
  intros env url tabId w b r badge. subst badge r.
  destruct (scanUrl_cases env url tabId w)
    as [[Hu ->]|[(u & e & Hu & Hf & _ & ->)|[(u & e & Hu & Hf & Hnn & ->)|
        [(u & Hu & Hm & _ & ->)|(u & Hu & Hm & Hok & Hnn & ->)]]]];
    cbn [value_of world_of fst snd trace].
  - repeat split; try discriminate.
    intros _ _. now rewrite shown_app, shown_loading.
  - repeat split; try discriminate.
    intros _ _. rewrite app_assoc, shown_app.
    cbn [shown]. now rewrite shown_app, shown_loading.
  - split; [discriminate|]. split; [congruence|].
    intros v [= <-] _. rewrite !app_assoc, shown_app, !shown_badge_events.
    split; [reflexivity|apply verdict_badge_not_loading].
  - split; [discriminate|]. split; [|congruence].
    intros _. rewrite !app_assoc, shown_app. apply shown_error.
  - split; [discriminate|]. split; [congruence|].
    intros v [= <-] _. rewrite !app_assoc, shown_app.
    rewrite shown_no_badge
      by (destruct (strict_eq_str _ _);
          [apply notification_no_badge|reflexivity]).
    rewrite shown_app, !shown_badge_events.
    split; [reflexivity|apply verdict_badge_not_loading].
Qed.

(* ===================================================================== *)
(** * Further properties of the listeners *)
(* ===================================================================== *)



(* ===================================================================== *)
(** * Further properties of the bulk scan *)
(* ===================================================================== *)

Lemma get_set_other {V : Type} k k' (v : V) (m : JsMap.t V) :
  k' <> k -> JsMap.get k' (JsMap.set k v m) = JsMap.get k' m.
Proof.
  intros Hne. unfold JsMap.get.
  induction m as [|[k0 v0] m IH]; simpl.
  - destruct (String.eqb k k') eqn:E; [|reflexivity].
    apply String.eqb_eq in E. congruence.
  - destruct (String.eqb k0 k) eqn:E; simpl.
    + apply String.eqb_eq in E. subst k0.
      destruct (String.eqb k k') eqn:E'; [|reflexivity].
      apply String.eqb_eq in E'. congruence.
    + now rewrite IH.
Qed.

Lemma scan_loop_results_eq env l : forall st,
  bulk_results (fold_left (scan_link env) l st) =
  bulk_results st ++ flat_map (result_of env) l.
Proof.
  induction l as [|link l IH]; intros st; cbn [fold_left flat_map].
  - now rewrite app_nil_r.
  - rewrite IH, scan_link_results, <- app_assoc. reflexivity.
Qed.

Lemma flat_map_short env l : length (flat_map (result_of env) l) <= length l.
Proof.
  induction l as [|link l IH]; cbn [flat_map length]; [lia|].
  rewrite length_app. unfold result_of at 1.
  destruct (check env link); cbn [length]; lia.
Qed.

Lemma scan_link_loop_events env st link :
  forallb is_loop_event (bulk_events st) = true ->
  forallb is_loop_event (bulk_events (scan_link env st link)) = true.
Proof.
  intros H. unfold scan_link.
  destruct (check env link) as [|status|status data]; cbn [bulk_events].
  1,2: now rewrite forallb_app, H.
  destruct (get_prop data "risk"); cbn [bulk_events];
    rewrite ?forallb_app, H; reflexivity.
Qed.

Lemma scan_loop_loop_events env l : forall st,
  forallb is_loop_event (bulk_events st) = true ->
  forallb is_loop_event (bulk_events (fold_left (scan_link env) l st)) = true.
Proof.
  induction l as [|link l IH]; intros st H; cbn [fold_left]; [exact H|].
  now apply IH, scan_link_loop_events.
Qed.

Lemma scan_links_loop_events env raw :
  forallb is_loop_event (bulk_events (scan_links env raw)) = true.
Proof. unfold scan_links. now apply scan_loop_loop_events. Qed.

Lemma loop_events_filter (keep : PopupEvent -> bool) evs :
  forallb is_loop_event evs = true ->
  (forall ev, is_loop_event ev = true -> keep ev = false) ->
  filter keep evs = [].
Proof.
  intros Hall Hkeep. apply filter_none. intros ev Hin.
  apply Hkeep. rewrite forallb_forall in Hall. now apply Hall.
Qed.

(** X9. The results of the bulk scan are, in the order of the scanned links,
    one entry for every link whose answer parsed as JSON and none for the
    others, so at most 50; a link that cannot be fetched or whose answer does
    not parse leaves no entry, and the links after it are fetched all the
    same. *)
Theorem bulk_results_in_order :
  forall env raw,
    let scanned := firstn 50 (dedup raw) in
    let st := scan_links env raw in
    bulk_results st = flat_map (result_of env) scanned /\
    length (bulk_results st) <= 50 /\
    fetched (bulk_events st) = scanned /\
    (forall link,
       check env link = NetworkError \/
       (exists status, check env link = NotJson status) ->
       forall r, In r (bulk_results st) -> link_url r <> link).
Proof.
  intros env raw scanned st.
  assert (Hres : bulk_results st = flat_map (result_of env) scanned).
  { unfold st, scan_links. now rewrite scan_loop_results_eq. }
  split; [exact Hres|]. split; [|split].
  - rewrite Hres. etransitivity; [apply flat_map_short|].
    unfold scanned. rewrite length_firstn. lia.
  - unfold st, scan_links.
    now destruct (scan_loop_spec env (firstn 50 (dedup raw))
      (mkBulk (mkStats (length (dedup raw)) 0 0 0) []
         [PLinksCount (length (dedup raw))])) as (_ & _ & _ & _ & _ & Hf & _).
  - intros link Hfail r Hin Heq. rewrite Hres in Hin.
    apply in_flat_map in Hin as (l & _ & Hr). unfold result_of in Hr.
    destruct (check env l) as [|status|status data] eqn:Hc; try easy.
    destruct Hr as [<- | []]. cbn in Heq. subst l.
    destruct Hfail as [H | [status' H]]; congruence.
Qed.

(** X10. What the bulk scan writes to the store holds, under the URL of the
    page, the stats of this scan, so that the popup opened again on the page
    shows exactly them; the records of all other pages are written back as
    they were read. *)
Theorem bulk_scan_stores_own_record :
  forall env raw stored m,
    getLinks env = Some raw ->
    storage_get env = Some stored ->
    In (PStorageSet m) (scanPageLinks env) ->
    loadPageLinksStats (currentUrl env) (Some (Some m)) =
      [PShowStats (bulk_stats (scan_links env raw))] /\
    (forall url, url <> currentUrl env ->
       JsMap.get url m =
       match stored with
       | Some old => JsMap.get url old
       | None => None
       end).
Proof.
  intros env raw stored m Hraw Hget Hin.
  assert (Hm : m = JsMap.set (currentUrl env) (bulk_stats (scan_links env raw))
                 (match stored with Some old => old | None => JsMap.empty end)).
  { unfold scanPageLinks in Hin. rewrite Hraw, Hget in Hin. cbv zeta in Hin.
    destruct (storage_set_ok env);
      apply in_app_or in Hin as [Hin|Hin];
      try (exfalso; unfold scan_links in Hin;
           apply scan_loop_no_storage in Hin; cbn in Hin;
           destruct Hin as [Hin|[]]; discriminate);
      cbn in Hin;
      repeat (destruct Hin as [Hin|Hin]; try discriminate; try easy);
      now injection Hin. }
  subst m. split.
  - unfold loadPageLinksStats. now rewrite get_set_same.
  - intros url Hne. rewrite get_set_other by exact Hne.
    now destruct stored.
Qed.

(** A page scanned while the store holds the stats of another page. *)
Lemma bulk_scan_stores_own_record_witness :
  getLinks MoreExamples.page_with_failure =
    Some ["http://a.example/"; "http://b.example/"; "http://a.example/";
          "http://c.example/"] /\
  storage_get MoreExamples.page_with_failure =
    Some (Some MoreExamples.other_page_stats) /\
  In (PStorageSet
        [("http://other.example/", mkStats 7 5 1 1);
         ("http://example.com/page", mkStats 3 2 0 0)])
     (scanPageLinks MoreExamples.page_with_failure) /\
  loadPageLinksStats "http://example.com/page"
    (Some (Some [("http://other.example/", mkStats 7 5 1 1);
                 ("http://example.com/page", mkStats 3 2 0 0)])) =
    [PShowStats (mkStats 3 2 0 0)].
Proof.
  assert (Hraw : getLinks MoreExamples.page_with_failure =
    Some ["http://a.example/"; "http://b.example/"; "http://a.example/";
          "http://c.example/"]) by reflexivity.
  assert (Hget : storage_get MoreExamples.page_with_failure =
    Some (Some MoreExamples.other_page_stats)) by reflexivity.
  assert (Hin : In (PStorageSet
        [("http://other.example/", mkStats 7 5 1 1);
         ("http://example.com/page", mkStats 3 2 0 0)])
     (scanPageLinks MoreExamples.page_with_failure)) by (cbn; auto 20).
  split; [exact Hraw|]. split; [exact Hget|]. split; [exact Hin|].
  exact (proj1 (bulk_scan_stores_own_record MoreExamples.page_with_failure
                  _ _ _ Hraw Hget Hin)).
Defined.

(** X11. The results go to the content script only after the stats have been
    read and written back: when the links cannot be had, or the store cannot
    be read or written, the bulk scan sends no highlight message and shows
    the failure toast instead of the count; when all of that works it sends
    exactly one highlight message, with the results of the loop. *)
Theorem highlight_needs_storage :
  forall env,
    (getLinks env = None \/ storage_get env = None \/
     storage_set_ok env = false ->
     filter is_highlight (scanPageLinks env) = [] /\
     filter is_scanned_toast (scanPageLinks env) = [] /\
     In PToastFailed (scanPageLinks env)) /\
    (forall raw stored,
       getLinks env = Some raw -> storage_get env = Some stored ->
       storage_set_ok env = true ->
       filter is_highlight (scanPageLinks env) =
         [PHighlight (bulk_results (scan_links env raw))] /\
       ~ In PToastFailed (scanPageLinks env)).
Proof.
  intros env.
  assert (Hloop : forall raw keep,
            (forall ev, is_loop_event ev = true -> keep ev = false) ->
            filter keep (bulk_events (scan_links env raw)) = []).
  { intros raw keep Hkeep. apply loop_events_filter;
      [apply scan_links_loop_events|exact Hkeep]. }
  assert (Hh : forall ev, is_loop_event ev = true -> is_highlight ev = false)
    by (intros []; cbn; congruence).
  assert (Ht : forall ev, is_loop_event ev = true -> is_scanned_toast ev = false)
    by (intros []; cbn; congruence).
  split.
  - intros Hfail. unfold scanPageLinks.
    destruct (getLinks env) as [raw|]; [|cbn; auto].
    cbv zeta. destruct (storage_get env) as [stored|].
    + destruct (storage_set_ok env).
      * destruct Hfail as [H|[H|H]]; discriminate.
      * rewrite !filter_app, !Hloop by assumption. cbn.
        repeat split. apply in_or_app. right. cbn. auto.
    + rewrite !filter_app, !Hloop by assumption. cbn.
      repeat split. apply in_or_app. right. cbn. auto.
  - intros raw stored Hraw Hget Hset. unfold scanPageLinks.
    rewrite Hraw, Hget, Hset. cbv zeta. split.
    + rewrite filter_app, Hloop by assumption. reflexivity.
    + intros Hin. apply in_app_or in Hin as [Hin|Hin].
      * pose proof (scan_links_loop_events env raw) as Hall.
        rewrite forallb_forall in Hall. apply Hall in Hin. discriminate.
      * cbn in Hin. intuition discriminate.
Qed.

(* ===================================================================== *)
(** * Properties of the popup helpers *)
(* ===================================================================== *)

Lemma append_length a b :
  String.length (String.append a b) = String.length a + String.length b.
Proof. induction a as [|c a IH]; simpl; [reflexivity|now rewrite IH]. Qed.

Lemma substring_length n : forall s,
  String.length (String.substring 0 n s) = Nat.min n (String.length s).
Proof.
  induction n as [|n IH]; intros [|c s]; simpl; try reflexivity.
  now rewrite IH.
Qed.

Lemma substring_whole n : forall s,
  String.length s <= n -> String.substring 0 n s = s.
Proof.
  induction n as [|n IH]; intros [|c s]; simpl; intros H; try reflexivity.
  - lia.
  - f_equal. apply IH. lia.
Qed.

Lemma prefix_append a b : String.prefix a (String.append a b) = true.
Proof.
  induction a as [|c a IH]; simpl; [now destruct b|].
  destruct (ascii_dec c c); [exact IH|congruence].
Qed.

Lemma prefix_self a : String.prefix a a = true.
Proof.
  induction a as [|c a IH]; simpl; [reflexivity|].
  destruct (ascii_dec c c); [exact IH|congruence].
Qed.

(** X12. [truncateUrl] returns a URL of at most [maxLength] characters as it
    is; a longer one becomes its first [maxLength] characters followed by
    three dots.  So the result has at most [maxLength + 3] characters, always
    starts with the first [maxLength] characters of the URL, and can be up to
    two characters longer than the URL it shortens. *)
Theorem truncateUrl_bounds :
  forall url maxLength,
    (String.length url <= maxLength -> truncateUrl url maxLength = url) /\
    (maxLength < String.length url ->
     truncateUrl url maxLength =
       String.append (String.substring 0 maxLength url) "..." /\
     String.length (truncateUrl url maxLength) = maxLength + 3) /\
    String.length (truncateUrl url maxLength) <= maxLength + 3 /\
    String.length (truncateUrl url maxLength) <= String.length url + 2 /\
    String.prefix (String.substring 0 maxLength url)
      (truncateUrl url maxLength) = true.
Proof.
  intros url n. unfold truncateUrl.
  destruct (Nat.leb_spec (String.length url) n) as [Hle|Hgt].
  - repeat split; try lia.
    rewrite substring_whole by exact Hle. apply prefix_self.
  - assert (Hlen : String.length
              (String.append (String.substring 0 n url) "...") = n + 3).
    { rewrite append_length, substring_length. simpl. lia. }
    repeat split; try lia. apply prefix_append.
Qed.

Lemma replace_no_underscore s : has_underscore (replace_underscores s) = false.
Proof.
  unfold has_underscore. induction s as [|c s IH]; simpl; [reflexivity|].
  rewrite IH. destruct (Ascii.eqb c "_") eqn:E; [reflexivity|].
  now rewrite E.
Qed.

Lemma replace_length s :
  String.length (replace_underscores s) = String.length s.
Proof. induction s as [|c s IH]; simpl; [reflexivity|now rewrite IH]. Qed.

Lemma replace_nothing s :
  has_underscore s = false -> replace_underscores s = s.
Proof.
  unfold has_underscore. induction s as [|c s IH]; simpl; [reflexivity|].
  intros H. apply orb_false_iff in H as [Hc Hs].
  rewrite Hc. f_equal. now apply IH.
Qed.

Lemma assoc_In {V : Type} k (m : list (string * V)) v :
  assoc k m = Some v -> In (k, v) m.
Proof.
  induction m as [|[k' v'] m IH]; simpl; [discriminate|].
  destruct (String.eqb k' k) eqn:E.
  - apply String.eqb_eq in E. intros [= ->]. left. now subst.
  - intros H. right. now apply IH.
Qed.

Lemma reasonMap_labels k label :
  assoc k reasonMap = Some label ->
  String.eqb label "" = false /\ has_underscore label = false.
Proof.
  intros H. apply assoc_In in H.
  assert (Hall : forallb
            (fun kv => negb (String.eqb (snd kv) "") &&
                       negb (has_underscore (snd kv))) reasonMap = true)
    by (vm_compute; reflexivity).
  rewrite forallb_forall in Hall. apply Hall in H. cbn [snd] in H.
  apply andb_true_iff in H as [H1 H2].
  now apply negb_true_iff in H1, H2.
Qed.

(** X13. Whatever text [formatReason] returns has no underscore in it: a
    reason listed in [reasonMap] gets its label, and any other reason comes
    back with every underscore turned into a space, so with its length, and
    unchanged when it had none. *)
Theorem formatReason_no_underscore :
  forall reason,
    (forall label, formatReason reason = Some label ->
       has_underscore label = false) /\
    (forall label, assoc reason reasonMap = Some label ->
       formatReason reason = Some label) /\
    (assoc reason reasonMap = None ->
     forall text, formatReason reason = Some text ->
       text = replace_underscores reason /\
       String.length text = String.length reason /\
       (has_underscore reason = false -> text = reason)).
Proof.
  intros reason. unfold formatReason.
  destruct (assoc reason reasonMap) as [label|] eqn:Hmap.
  - destruct (reasonMap_labels reason label Hmap) as [Hne Hno].
    rewrite Hne. split; [|split].
    + intros l [= <-]. exact Hno.
    + intros l [= <-]. reflexivity.
    + discriminate.
  - destruct (existsb (String.eqb reason) object_prototype_names).
    + split; [|split]; discriminate.
    + split; [|split].
      * intros l [= <-]. apply replace_no_underscore.
      * discriminate.
      * intros _ text [= <-]. split; [reflexivity|].
        split; [apply replace_length|apply replace_nothing].
Qed.


(* ===================================================================== *)
(** * Further properties of stores, lookups and deduplication *)
(* ===================================================================== *)

(** X15. An entry whose age is exactly the TTL is on the boundary of the two
    tests: the scan no longer takes it as fresh and goes to the remote
    service, while a sweep at that moment does not count it as expired and,
    with the cache within its capacity, keeps it. *)
Theorem entry_at_ttl_boundary :
  forall env url w entry,
    JsMap.get (toLowerCase url) (urlCache w) = Some entry ->
    (now_check env - timestamp entry = CACHE_TTL)%Z ->
    cache_miss env url w /\
    expired (now_check env) (toLowerCase url, entry) = false /\
    (NoDup (JsMap.keys (urlCache w)) ->
     (JsMap.size (urlCache w) <= 1000)%nat ->
     JsMap.get (toLowerCase url) (cleanCache (now_check env) (urlCache w)) =
       Some entry).
Proof.
  intros env url w entry Hget Hage.
  assert (Hlive : expired (now_check env) (toLowerCase url, entry) = false).
  { unfold expired. cbn [snd].
    destruct (Z.gtb_spec (now_check env - timestamp entry) CACHE_TTL);
      [lia|reflexivity]. }
  split; [apply stale_is_miss with entry; [exact Hget|lia]|].
  split; [exact Hlive|].
  intros Hn Hsize.
  assert (Hsmall : (JsMap.size (filter (alive (now_check env)) (urlCache w))
                    <= 1000)%nat).
  { etransitivity; [apply filter_length_le|exact Hsize]. }
  rewrite (cleanCache_keeps_fresh_filter (now_check env) (urlCache w) Hn Hsmall).
  apply In_get; [now apply keys_filter|].
  apply filter_In. split; [now apply get_In|].
  unfold alive. now rewrite Hlive.
Qed.

(** The entry of the first scan of the example, five minutes on. *)
Lemma entry_at_ttl_boundary_witness :
  JsMap.get (toLowerCase "http://example.com/a")
    (urlCache Examples.after_first_scan) =
    Some (mkEntry Examples.malicious_verdict 1000) /\
  (now_check MoreExamples.at_the_ttl - 1000 = CACHE_TTL)%Z /\
  cache_miss MoreExamples.at_the_ttl "http://example.com/a"
    Examples.after_first_scan /\
  expired (now_check MoreExamples.at_the_ttl)
    ("http://example.com/a", mkEntry Examples.malicious_verdict 1000) = false.
Proof.
  assert (Hget : JsMap.get (toLowerCase "http://example.com/a")
            (urlCache Examples.after_first_scan) =
          Some (mkEntry Examples.malicious_verdict 1000)) by reflexivity.
  assert (Hage : (now_check MoreExamples.at_the_ttl -
                  timestamp (mkEntry Examples.malicious_verdict 1000) =
                  CACHE_TTL)%Z) by reflexivity.
  destruct (entry_at_ttl_boundary MoreExamples.at_the_ttl
              "http://example.com/a" Examples.after_first_scan _ Hget Hage)
    as (Hmiss & Hlive & _).
  split; [exact Hget|]. split; [exact Hage|]. split; [exact Hmiss|exact Hlive].
Defined.

(** X16. A store grows the cache by at most one entry, and not at all when
    the key is already there: scanning a URL again, after its entry has
    expired, takes no further room. *)
Theorem store_grows_by_at_most_one :
  forall key r now_store now_clean c,
    (JsMap.size (put key r now_store now_clean c) <= S (JsMap.size c))%nat /\
    (In key (JsMap.keys c) ->
     (JsMap.size (put key r now_store now_clean c) <= JsMap.size c)%nat).
Proof.
  intros key r t1 t2 c.
  assert (Hle : (JsMap.size (put key r t1 t2 c) <=
                 JsMap.size (JsMap.set key (mkEntry r t1) c))%nat).
  { unfold put, cleanCache.
    etransitivity; [|apply (sweepExpired_size t2)].
    unfold limitSize. destruct (1000 <? JsMap.size _)%nat; [|reflexivity].
    rewrite delete_all. apply filter_length_le. }
  pose proof (set_size key (mkEntry r t1) c) as Hs.
  destruct (in_dec string_dec key (JsMap.keys c)) as [Hin|Hout].
  - split; [lia|intros _; lia].
  - split; [lia|intros Hin; contradiction].
Qed.

(** X17. Storing a verdict for one URL leaves the lookup of every other key
    as it was, as long as the sweep that follows has nothing to remove: all
    entries, the new one too, are within the TTL and the cache stays within
    its capacity. *)
Theorem store_keeps_other_lookups :
  forall key r now_store now_clean c other,
    NoDup (JsMap.keys c) ->
    (S (JsMap.size c) <= 1000)%nat ->
    (forall kv, In kv c -> alive now_clean kv = true) ->
    (now_clean - now_store <= CACHE_TTL)%Z ->
    other <> key ->
    JsMap.get other (put key r now_store now_clean c) = JsMap.get other c /\
    JsMap.get key (put key r now_store now_clean c) =
      Some (mkEntry r now_store).
Proof.
  intros key r t1 t2 c other Hn Hsize Hlive Hclean Hne.
  set (c' := JsMap.set key (mkEntry r t1) c).
  assert (Hn' : NoDup (JsMap.keys c')) by now apply set_keys_NoDup.
  assert (Hall : filter (alive t2) c' = c').
  { apply filter_all. intros kv Hin. apply set_In in Hin.
    destruct Hin as [-> | Hin]; [|now apply Hlive].
    unfold alive, expired. cbn [snd timestamp].
    destruct (Z.gtb_spec (t2 - t1) CACHE_TTL); [lia|reflexivity]. }
  assert (Hput : put key r t1 t2 c = c').
  { unfold put. fold c'.
    rewrite cleanCache_keeps_fresh_filter; [exact Hall|exact Hn'|].
    rewrite Hall. pose proof (set_size key (mkEntry r t1) c) as Hs.
    fold c' in Hs. destruct (in_dec string_dec key (JsMap.keys c)); lia. }
  rewrite Hput. unfold c'. split.
  - now apply get_set_other.
  - apply get_set_same.
Qed.

(** Storing a third verdict in a cache of two. *)
Lemma store_keeps_other_lookups_witness :
  NoDup (JsMap.keys MoreExamples.small_cache) /\
  (S (JsMap.size MoreExamples.small_cache) <= 1000)%nat /\
  (forall kv, In kv MoreExamples.small_cache -> alive 3000 kv = true) /\
  (3000 - 3000 <= CACHE_TTL)%Z /\
  "http://a.example/" <> "http://c.example/" /\
  JsMap.get "http://a.example/"
    (put "http://c.example/" Examples.safe_verdict 3000 3000
       MoreExamples.small_cache) =
    Some (mkEntry Examples.safe_verdict 1000).
Proof.
  assert (Hn : NoDup (JsMap.keys MoreExamples.small_cache)).
  { cbn. repeat constructor; cbn; intuition discriminate. }
  assert (Hs : (S (JsMap.size MoreExamples.small_cache) <= 1000)%nat)
    by (cbn; lia).
  assert (Hl : forall kv, In kv MoreExamples.small_cache ->
                          alive 3000 kv = true).
  { intros kv [<- | [<- | []]]; reflexivity. }
  assert (Hc : (3000 - 3000 <= CACHE_TTL)%Z) by (unfold CACHE_TTL; lia).
  assert (Hne : "http://a.example/" <> "http://c.example/") by discriminate.
  split; [exact Hn|]. split; [exact Hs|]. split; [exact Hl|].
  split; [exact Hc|]. split; [exact Hne|].
  rewrite (proj1 (store_keeps_other_lookups "http://c.example/"
                    Examples.safe_verdict 3000 3000
                    MoreExamples.small_cache "http://a.example/"
                    Hn Hs Hl Hc Hne)).
  reflexivity.
Defined.

Lemma dedup_from_filter x l : forall seen seen',
  (forall z, In z seen' <-> z = x \/ In z seen) ->
  dedup_from seen' l =
  dedup_from seen (filter (fun y => negb (String.eqb y x)) l).
Proof.
  induction l as [|y l IH]; intros seen seen' Hseen; cbn [dedup_from filter];
    [reflexivity|].
  destruct (String.eqb y x) eqn:Eyx; cbn [negb].
  - apply String.eqb_eq in Eyx. subst y.
    assert (H : existsb (String.eqb x) seen' = true)
      by (apply seen_In, Hseen; now left).
    rewrite H. now apply IH.
  - apply String.eqb_neq in Eyx. cbn [dedup_from].
    destruct (existsb (String.eqb y) seen) eqn:E.
    + assert (H : existsb (String.eqb y) seen' = true).
      { apply seen_In, Hseen. right. now apply seen_In. }
      rewrite H. now apply IH.
    + assert (H : existsb (String.eqb y) seen' = false).
      { destruct (existsb (String.eqb y) seen') eqn:E'; [|reflexivity].
        apply seen_In, Hseen in E'. destruct E' as [-> | E']; [congruence|].
        apply seen_In in E'. congruence. }
      rewrite H. f_equal. apply IH. intros z. cbn [In]. rewrite Hseen. tauto.
Qed.

(** X18. The deduplication of the bulk scan keeps the first occurrence of
    every link and drops the later ones: the first link stays first and the
    rest is the deduplication of the other links without it.  It never
    lengthens the list, leaves a list without repeats as it is, and changes
    nothing when applied again. *)
Theorem dedup_keeps_first_occurrences :
  forall l,
    dedup [] = [] /\
    (forall x, dedup (x :: l) =
       x :: dedup (filter (fun y => negb (String.eqb y x)) l)) /\
    length (dedup l) <= length l /\
    (NoDup l -> dedup l = l) /\
    dedup (dedup l) = dedup l.
Proof.
  intros l. split; [reflexivity|]. split; [|split; [|split]].
  - intros x. unfold dedup. cbn [dedup_from existsb]. f_equal.
    apply dedup_from_filter. intros z. cbn [In]. intuition congruence.
  - unfold dedup. generalize (@nil string).
    induction l as [|y l IH]; intros seen; cbn [dedup_from length]; [lia|].
    destruct (existsb (String.eqb y) seen); cbn [length];
      [specialize (IH seen)|specialize (IH (y :: seen))]; lia.
  - apply dedup_id.
  - apply dedup_id, dedup_NoDup.
Qed.
